(** * golucene: deletion policy, serial merge scheduler, lock polling and
    the block byte store

    A shallow embedding of the Go sources

      - [index/IndexDeletionPolicy], [KeepOnlyLastCommitDeletionPolicy],
        [IndexFileDeleter] and [store/Lock] (the file holding both packages),
      - [core/index/merge.go] ([SerialMergeScheduler]),
      - [index/bytes.go] ([BytesStore] and its forward readers),

    together with the properties the specification states about them. *)

From Stdlib Require Import String.
From Stdlib Require Import ZArith List Lia Bool.
From Stdlib Require Import Init.Byte DecimalString.
Import ListNotations.

Local Open Scope Z_scope.

(** ** Go runtime conventions shared by all packages *)

(** What a Go call can do: return normally, panic, or (for the loops that
    wait on the outside world) still be running when the observation
    budget is used up. *)
Inductive outcome (A : Type) : Type :=
| Returned (a : A)
| Panicked (msg : string)
| Running.

Arguments Returned {A} a.
Arguments Panicked {A} msg.
Arguments Running {A}.

(** A Go [error] value; [None] is [nil]. *)
Definition error := string.

(** Fixed-width integers: the value an arithmetic result has after it is
    stored in a variable of the given type. *)
Definition wrap_uint32 (z : Z) : Z := z mod 2 ^ 32.
Definition wrap_int32 (z : Z) : Z := (z + 2 ^ 31) mod 2 ^ 32 - 2 ^ 31.
Definition wrap_int64 (z : Z) : Z := (z + 2 ^ 63) mod 2 ^ 64 - 2 ^ 63.

Definition in_int64 (z : Z) : Prop := - 2 ^ 63 <= z < 2 ^ 63.

(** [s[i]] on a slice: [None] stands for the run-time panic
    "index out of range". *)
Definition index {A : Type} (s : list A) (i : Z) : option A :=
  if i <? 0 then None else nth_error s (Z.to_nat i).

(** [s[i] = v] on a slice whose index is known to be in range. *)
Fixpoint store {A : Type} (s : list A) (i : nat) (v : A) : list A :=
  match s, i with
  | [], _ => []
  | _ :: tl, O => v :: tl
  | hd :: tl, S i' => hd :: store tl i' v
  end.

Definition len {A : Type} (s : list A) : Z := Z.of_nat (length s).

(** ** Package index: deletion policies *)

Module Policy.

(** Modelled from the spec: the type [IndexCommit] is not among the
    sources.  The specification describes a commit point as a named,
    persisted generation with a [delete] capability; here it is the name
    of its [segments_N] file and the flag [Delete] sets. *)
Record IndexCommit : Type := mkCommit {
  segmentsFileName : string;
  isDeleted : bool
}.

Definition Delete (c : IndexCommit) : IndexCommit :=
  mkCommit (segmentsFileName c) true.

(** The policies are Go [bool]s used as singletons. *)
Definition NoDeletionPolicy := bool.
Definition KeepOnlyLastCommitDeletionPolicy := bool.
Definition DEFAULT_DELETION_POLICY : KeepOnlyLastCommitDeletionPolicy := true.

(** What a policy hook leaves behind: the commits in the slice it was
    given (the objects are shared with the caller), the indices at which
    it called [Delete], in call order, and the error it returns. *)
Record hook_result : Type := mkHook {
  commits_after : list IndexCommit;
  delete_calls : list Z;
  returned : option error
}.

(** The body of
    [for i, limit := 0, len(commits); i < limit-1; i++ { commits[i].Delete() }].
    [i] stays within [0, len(commits)), so no [int] operation wraps. *)
Fixpoint onCommit_for (fuel : nat) (i limit : Z)
         (commits : list IndexCommit) (calls : list Z)
  : outcome (list IndexCommit * list Z) :=
  if i <? limit - 1 then
    match fuel with
    | O => Running
    | S fuel' =>
        match index commits i with
        | None => Panicked "index out of range"
        | Some c =>
            onCommit_for fuel' (i + 1) limit
                         (store commits (Z.to_nat i) (Delete c)) (calls ++ [i])
        end
    end
  else Returned (commits, calls).

Definition onCommit (p : KeepOnlyLastCommitDeletionPolicy)
           (commits : list IndexCommit) : outcome hook_result :=
  match onCommit_for (length commits) 0 (len commits) commits [] with
  | Returned (cs, calls) => Returned (mkHook cs calls None)
  | Panicked msg => Panicked msg
  | Running => Running
  end.

Definition onInit (p : KeepOnlyLastCommitDeletionPolicy)
           (commits : list IndexCommit) : outcome hook_result :=
  onCommit p commits.

Definition NoDeletionPolicy_onCommit (p : NoDeletionPolicy)
           (commits : list IndexCommit) : outcome hook_result :=
  Returned (mkHook commits [] None).

(** The retain-last-only strategy in the specification's words: every
    commit except the final one is deleted, the final one is kept. *)
Definition retain_last_only (commits : list IndexCommit) : list IndexCommit :=
  match rev commits with
  | [] => []
  | newest :: older => rev (map Delete older) ++ [newest]
  end.

(** The indices [from, from+1, ..., from+n-1]. *)
Fixpoint indices (from : Z) (n : nat) : list Z :=
  match n with
  | O => []
  | S n' => from :: indices (from + 1) n'
  end.

End Policy.

(** ** Package index: the index file deleter *)

Module Deleter.

(** [type IndexFileDeleter struct {}]: the deleter holds no reference-count
    table (and no commit list). *)
Record IndexFileDeleter : Type := mkDeleter { }.

(** Modelled from the spec: the type [SegmentInfos] is not among the
    sources.  The specification describes a generation by the files its
    segment descriptors name; here it is that list of file names. *)
Definition SegmentInfos : Type := list string.

(** [checkpoint] is [panic("not implemented yet")]. *)
Definition checkpoint (del : IndexFileDeleter) (segmentInfos : SegmentInfos)
           (isCommit : bool) : outcome (IndexFileDeleter * option error) :=
  Panicked "not implemented yet".

(** Running a sequence of checkpoints: the first call that does not return
    ends the sequence. *)
Fixpoint checkpoints (del : IndexFileDeleter)
         (calls : list (SegmentInfos * bool))
  : outcome (IndexFileDeleter * option error) :=
  match calls with
  | [] => Returned (del, None)
  | (infos, isCommit) :: rest =>
      match checkpoint del infos isCommit with
      | Returned (del', None) => checkpoints del' rest
      | stopped => stopped
      end
  end.

End Deleter.

(** ** Package index: the serial merge scheduler *)

Module Merge.

(** [*OneMerge]: the struct is empty, a merge is known by its identity. *)
Definition OneMerge : Type := nat.

(** Modelled from the spec: [IndexWriter] is not among the sources.  The
    specification gives its queueing contract: [nextMerge] pops the next
    queued merge, or reports none when the queue is empty; [merge] executes
    one merge synchronously in the calling context and reports its error.
    The writer is its queue and the merges executed so far, oldest first. *)
Record IndexWriter : Type := mkWriter {
  pendingMerges : list OneMerge;
  executed : list OneMerge
}.

Definition nextMerge (writer : IndexWriter) : option OneMerge * IndexWriter :=
  match pendingMerges writer with
  | [] => (None, writer)
  | m :: queue => (Some m, mkWriter queue (executed writer))
  end.

Section Scheduler.

(** How each merge ends when it is executed: [None] for success. *)
Variable mergeError : OneMerge -> option error.

Definition merge (m : OneMerge) (writer : IndexWriter)
  : option error * IndexWriter :=
  (mergeError m, mkWriter (pendingMerges writer) (executed writer ++ [m])).

(** [for ...; merge != nil && err == nil; merge = writer.nextMerge()
      { err = writer.merge(merge) }]:
    the condition, then the body, then the post statement. *)
Fixpoint Merge_for (fuel : nat) (next : option OneMerge) (err : option error)
         (writer : IndexWriter) : outcome (option error * IndexWriter) :=
  match next, err with
  | Some m, None =>
      match fuel with
      | O => Running
      | S fuel' =>
          let (err', writer1) := merge m writer in
          let (next', writer2) := nextMerge writer1 in
          Merge_for fuel' next' err' writer2
      end
  | _, _ => Returned (err, writer)
  end.

(** [SerialMergeScheduler.Merge].  The scheduler's mutex only keeps
    concurrent callers apart; one caller takes it and releases it on
    return. *)
Definition Merge (writer : IndexWriter) : outcome (option error * IndexWriter) :=
  let (first, writer0) := nextMerge writer in
  Merge_for (length (pendingMerges writer)) first None writer0.

(** The loop as it is entered, the head of [queue] just popped. *)
Definition entered (fuel : nat) (queue done : list OneMerge)
  : outcome (option error * IndexWriter) :=
  Merge_for fuel (hd_error queue) None (mkWriter (tl queue) done).

End Scheduler.

(** A run in which merge [1] fails and every other merge succeeds. *)
Definition m1_fails (m : OneMerge) : option error :=
  if Nat.eqb m 1 then Some "m1 failed"%string else None.

End Merge.

(** ** Package store: locks *)

Module Lock.

Definition LOCK_POOL_INTERVAL : Z := 1000.
Definition LOCK_OBTAIN_WAIT_FOREVER : Z := -1.

(** What [ObtainWithin] does to the outside: the calls to [Obtain], each
    with what it returned, and the sleeps, in order. *)
Inductive event : Type :=
| EvObtain (locked : bool) (err : option error)
| EvSleep (milliseconds : Z).

(** The errors [ObtainWithin] returns: the one [Obtain] gave, or the one
    made by [errors.New] at the time-out, with the failure reason it
    appends. *)
Inductive obtain_error : Type :=
| ObtainError (e : error)
| LockObtainTimeOut (failure : option error).

(** Modelled from the spec: [assert2] is not among the sources.  Like its
    sibling [assert], it panics when the condition is false, here with the
    message it is given; the specification has configuration errors
    reported immediately and synchronously. *)
Definition assert2 (ok : bool) (msg : string) : option string :=
  if ok then None else Some msg.

Section LockImpl.

(** The lock behind [lock.self], with whatever state its [Obtain] reads. *)
Variable Self : Type.

Record LockImpl : Type := mkLock {
  self : Self;
  failureReason : option error
}.

(** [lock.self.Obtain()]: the implementation may also record a failure
    reason in the lock. *)
Variable Obtain : LockImpl -> (bool * option error) * LockImpl.

Record world : Type := mkWorld {
  lock : LockImpl;
  log : list event
}.

Definition call_Obtain (w : world) : (bool * option error) * world :=
  let (r, lock') := Obtain (lock w) in
  (r, mkWorld lock' (log w ++ [EvObtain (fst r) (snd r)])).

Definition Sleep (milliseconds : Z) (w : world) : world :=
  mkWorld (lock w) (log w ++ [EvSleep milliseconds]).

(** [for sleepCount := int64(0); !locked; locked, err = lock.self.Obtain()].
    [fuel] bounds the iterations observed; the world is what the call has
    done to the outside by the time it returns, panics or is left
    running. *)
Fixpoint ObtainWithin_for (fuel : nat)
         (lockWaitTimeout maxSleepCount sleepCount : Z)
         (locked : bool) (err : option error) (w : world)
  : outcome (bool * option obtain_error) * world :=
  if negb locked then
    if negb (lockWaitTimeout =? LOCK_OBTAIN_WAIT_FOREVER)
       && (maxSleepCount <=? sleepCount)
    then (Returned (locked, Some (LockObtainTimeOut (failureReason (lock w)))), w)
    else
      match fuel with
      | O => (Running, w)
      | S fuel' =>
          let sleepCount' := wrap_int64 (sleepCount + 1) in
          let w1 := Sleep LOCK_POOL_INTERVAL w in
          let '((locked', err'), w2) := call_Obtain w1 in
          ObtainWithin_for fuel' lockWaitTimeout maxSleepCount sleepCount'
                           locked' err' w2
      end
  else (Returned (locked, option_map ObtainError err), w).

Definition invalid_timeout_message (lockWaitTimeout : Z) : string :=
  ("lockWaitTimeout should be LOCK_OBTAIN_WAIT_FOREVER or a non-negative number (got "
     ++ DecimalString.NilZero.string_of_int (Z.to_int lockWaitTimeout) ++ ")")%string.

Definition ObtainWithin (fuel : nat) (lockWaitTimeout : Z) (w : world)
  : outcome (bool * option obtain_error) * world :=
  let w0 := mkWorld (mkLock (self (lock w)) None) (log w) in
  let '((locked, err), w1) := call_Obtain w0 in
  match err with
  | Some e => (Returned (locked, Some (ObtainError e)), w1)
  | None =>
      match assert2 ((0 <=? lockWaitTimeout)
                     || (lockWaitTimeout =? LOCK_OBTAIN_WAIT_FOREVER))
                    (invalid_timeout_message lockWaitTimeout) with
      | Some msg => (Panicked msg, w1)
      | None =>
          let maxSleepCount := Z.quot lockWaitTimeout LOCK_POOL_INTERVAL in
          ObtainWithin_for fuel lockWaitTimeout maxSleepCount 0 locked err w1
      end
  end.

End LockImpl.

Arguments mkLock {Self} self failureReason.
Arguments self {Self} l.
Arguments failureReason {Self} l.
Arguments mkWorld {Self} lock log.
Arguments lock {Self} w.
Arguments log {Self} w.
Arguments Sleep {Self} milliseconds w.
Arguments call_Obtain {Self} Obtain w.
Arguments ObtainWithin_for {Self} Obtain fuel lockWaitTimeout maxSleepCount
          sleepCount locked err w.
Arguments ObtainWithin {Self} Obtain fuel lockWaitTimeout w.

(** Number of [Obtain] attempts in a log, and the time slept in it. *)
Fixpoint attempts (l : list event) : nat :=
  match l with
  | [] => O
  | EvObtain _ _ :: l' => S (attempts l')
  | EvSleep _ :: l' => attempts l'
  end.

Fixpoint slept (l : list event) : Z :=
  match l with
  | [] => 0
  | EvObtain _ _ :: l' => slept l'
  | EvSleep ms :: l' => ms + slept l'
  end.

(** The log of the turns of the polling loop, given what the [Obtain]
    attempt of each turn returned: every turn sleeps one poll interval and
    then makes its attempt. *)
Definition polls (results : list (bool * option error)) : list event :=
  flat_map (fun r => [EvSleep LOCK_POOL_INTERVAL; EvObtain (fst r) (snd r)])
           results.

(** A lock that somebody else holds for good: every [Obtain] reports
    [(false, nil)] and leaves the lock as it is. *)
Definition busy_Obtain (l : LockImpl unit) : (bool * option error) * LockImpl unit :=
  ((false, None), l).

(** A lock whose [Obtain] fails with an I/O error. *)
Definition broken_Obtain (l : LockImpl unit) : (bool * option error) * LockImpl unit :=
  ((false, Some "permission denied"%string), l).

(** A lock that is free. *)
Definition free_Obtain (l : LockImpl unit) : (bool * option error) * LockImpl unit :=
  ((true, None), l).

(** A lock that is released after [self] more attempts. *)
Definition countdown_Obtain (l : LockImpl nat) : (bool * option error) * LockImpl nat :=
  match self l with
  | O => ((true, None), l)
  | S k => ((false, None), mkLock k (failureReason l))
  end.

Definition fresh_world : world unit := mkWorld (mkLock tt None) [].

(** A lock that is never released and whose [Obtain], from the second
    attempt on, also returns an error ([self] tells whether an attempt has
    been made). *)
Definition grumbling_Obtain (l : LockImpl bool) : (bool * option error) * LockImpl bool :=
  if self l
  then ((false, Some "lock file is held"%string), l)
  else ((false, None), mkLock true (failureReason l)).

End Lock.

(** ** Package store: lock factories *)

Module Factory.

Record LockFactoryImpl : Type := mkFactoryImpl {
  lockPrefix : string
}.

Definition SetLockPrefix (prefix : string) (f : LockFactoryImpl) : LockFactoryImpl :=
  mkFactoryImpl prefix.

Definition LockPrefix (f : LockFactoryImpl) : string := lockPrefix f.

(** [FSLockFactory] embeds a [*LockFactoryImpl] of its own. *)
Record FSLockFactory : Type := mkFS {
  base : LockFactoryImpl;
  lockDir : string
}.

Definition newFSLockFactory : FSLockFactory := mkFS (mkFactoryImpl "") "".

Definition setLockDir (dir : string) (f : FSLockFactory) : outcome FSLockFactory :=
  if String.eqb (lockDir f) ""
  then Returned (mkFS (base f) dir)
  else Panicked "You can set the lock directory for this factory only once.".

Definition getLockDir (f : FSLockFactory) : string := lockDir f.

(** [setLockDir] called with each of [dirs] in turn; a panic ends the
    sequence. *)
Fixpoint setLockDirs (dirs : list string) (f : FSLockFactory)
  : outcome FSLockFactory :=
  match dirs with
  | [] => Returned f
  | dir :: rest =>
      match setLockDir dir f with
      | Returned f' => setLockDirs rest f'
      | stopped => stopped
      end
  end.

End Factory.

(** ** Package index: the block byte store *)

Module Bytes.

(** [copy(dst, src)]: overwrites the front of [dst] with as much of [src] as
    fits, and leaves [src] alone. *)
Fixpoint copy (dst src : list byte) : list byte :=
  match dst, src with
  | _ :: dst', b :: src' => b :: copy dst' src'
  | _, _ => dst
  end.

(** [copy(dst[from:], src)] as seen from [dst], whose tail the slice
    expression shares. *)
Definition copy_at (dst : list byte) (from : nat) (src : list byte) : list byte :=
  firstn from dst ++ copy (skipn from dst) src.

(** [current] shares its array with one of the blocks: it is kept as that
    block's index, [None] for [nil]. *)
Record BytesStore : Type := mkStore {
  blocks : list (list byte);
  blockSize : Z;
  blockBits : Z;
  blockMask : Z;
  current : option nat;
  nextWrite : Z
}.

Definition newBytesStore (blockBits : Z) : BytesStore :=
  let blockSize := wrap_uint32 (Z.shiftl 1 blockBits) in
  mkStore [] blockSize blockBits (wrap_uint32 (blockSize - 1)) None blockSize.

(** [make([]byte, n)]. *)
Definition make (n : Z) : list byte := repeat x00 (Z.to_nat n).

(** The [WriteByte] closure of the store's [DataOutput]. *)
Definition WriteByte (b : byte) (bs : BytesStore) : outcome (option error * BytesStore) :=
  let bs1 :=
    if nextWrite bs =? blockSize bs
    then mkStore (blocks bs ++ [make (blockSize bs)]) (blockSize bs)
                 (blockBits bs) (blockMask bs) (Some (length (blocks bs))) 0
    else bs in
  match current bs1 with
  | None => Panicked "index out of range"
  | Some cur =>
      match nth_error (blocks bs1) cur with
      | None => Panicked "index out of range"
      | Some block =>
          match index block (nextWrite bs1) with
          | None => Panicked "index out of range"
          | Some _ =>
              Returned (None,
                        mkStore (store (blocks bs1) cur
                                       (store block (Z.to_nat (nextWrite bs1)) b))
                                (blockSize bs1) (blockBits bs1) (blockMask bs1)
                                (current bs1) (wrap_uint32 (nextWrite bs1 + 1)))
          end
      end
  end.

(** Bytes written so far: the full blocks and the used part of the last. *)
Definition written (bs : BytesStore) : Z :=
  match blocks bs with
  | [] => 0
  | _ :: _ => (len (blocks bs) - 1) * blockSize bs + nextWrite bs
  end.

(** What [newBytesStore] sets up and every write keeps. *)
Record store_ok (bs : BytesStore) : Prop := mkOk {
  ok_bits : 0 <= blockBits bs < 2 ^ 32;
  ok_size : blockSize bs = wrap_uint32 (Z.shiftl 1 (blockBits bs));
  ok_mask : blockMask bs = wrap_uint32 (blockSize bs - 1);
  ok_next : 0 <= nextWrite bs <= blockSize bs;
  ok_blocks : Forall (fun block => len block = blockSize bs) (blocks bs)
}.

(** [ForwardBytesReader]: its closures read the variable [bytes], which is
    [bs.blocks[0]] itself and not a copy; the struct's own [bytes] field is
    never assigned. *)
Record ForwardBytesReader : Type := mkForward {
  pos : Z
}.

Record ByteStoreForwardReader : Type := mkMulti {
  mcurrent : option nat;
  nextBuffer : Z;
  nextRead : Z
}.

Inductive BytesReader : Type :=
| Single (r : ForwardBytesReader)
| Multi (r : ByteStoreForwardReader).

Definition forwardReader (bs : BytesStore) : BytesReader :=
  if len (blocks bs) =? 1
  then Single (mkForward 0)
  else Multi (mkMulti None 0 (blockSize bs)).

(** *** The single-block reader, [newForwardBytesReader] *)

Record read_result : Type := mkRead {
  n : Z;
  err : option error;
  buf_after : list byte;
  store_after : BytesStore;
  reader_after : ForwardBytesReader
}.

(** [ReadBytes]: [copy(bytes[self.pos:], buf); self.pos += int32(len(buf));
    return len(buf), nil]. *)
Definition ReadBytes (bs : BytesStore) (r : ForwardBytesReader) (buf : list byte)
  : outcome read_result :=
  match index (blocks bs) 0 with
  | None => Panicked "index out of range"
  | Some bytes =>
      if (pos r <? 0) || (len bytes <? pos r)
      then Panicked "slice bounds out of range"
      else
        let bytes' := copy_at bytes (Z.to_nat (pos r)) buf in
        Returned (mkRead (len buf) None buf
                         (mkStore (store (blocks bs) 0 bytes') (blockSize bs)
                                  (blockBits bs) (blockMask bs) (current bs)
                                  (nextWrite bs))
                         (mkForward (wrap_int32 (pos r + wrap_int32 (len buf)))))
  end.

Definition getPosition_single (r : ForwardBytesReader) : Z := pos r.

Definition setPosition_single (p : Z) (r : ForwardBytesReader) : ForwardBytesReader :=
  mkForward (wrap_int32 p).

(** What a read is meant to deliver: the [count] stored bytes from [from]
    on. *)
Definition stored_bytes (bs : BytesStore) (from count : Z) : list byte :=
  match index (blocks bs) 0 with
  | None => []
  | Some bytes => firstn (Z.to_nat count) (skipn (Z.to_nat from) bytes)
  end.

(** *** The multi-block reader *)

(** [(int64(self.nextBuffer)-1)*int64(bs.blockSize) + int64(self.nextRead)]. *)
Definition getPosition (bs : BytesStore) (r : ByteStoreForwardReader) : Z :=
  wrap_int64 (wrap_int64 (wrap_int64 (nextBuffer r - 1) * blockSize bs)
              + nextRead r).

Definition setPosition (bs : BytesStore) (p : Z) (r : ByteStoreForwardReader)
  : outcome ByteStoreForwardReader :=
  let bufferIndex := Z.shiftr p (blockBits bs) in
  let nextBuffer' := wrap_uint32 (wrap_int64 (bufferIndex + 1)) in
  match index (blocks bs) bufferIndex with
  | None => Panicked "index out of range"
  | Some _ =>
      Returned (mkMulti (Some (Z.to_nat bufferIndex)) nextBuffer'
                        (Z.land (wrap_uint32 p) (blockMask bs)))
  end.

(** [s[lo:hi]] on a slice whose capacity is its length; [None] stands for
    the panic "slice bounds out of range". *)
Definition slice (s : list byte) (lo hi : Z) : option (list byte) :=
  if (0 <=? lo) && (lo <=? hi) && (hi <=? len s)
  then Some (firstn (Z.to_nat (hi - lo)) (skipn (Z.to_nat lo) s))
  else None.

(** The block [self.current] shares, [nil] when there is none. *)
Definition current_block (bs : BytesStore) (r : ByteStoreForwardReader) : list byte :=
  match mcurrent r with
  | None => []
  | Some i => nth i (blocks bs) []
  end.

(** The loop of the multi-block [ReadBytes]:
    [copy(buf[offset:], self.current[self.nextRead:self.nextRead+length])],
    block after block. *)
Fixpoint ReadBytes_multi_for (fuel : nat) (bs : BytesStore) (offset length : Z)
         (buf : list byte) (r : ByteStoreForwardReader)
  : outcome (list byte * ByteStoreForwardReader) :=
  if 0 <? length then
    match fuel with
    | O => Running
    | S fuel' =>
        let chunkLeft := wrap_uint32 (blockSize bs - nextRead r) in
        if length <=? chunkLeft then
          match slice (current_block bs r) (nextRead r)
                      (wrap_uint32 (nextRead r + length)) with
          | None => Panicked "slice bounds out of range"
          | Some src =>
              if len buf <? offset then Panicked "slice bounds out of range"
              else Returned (copy_at buf (Z.to_nat offset) src,
                             mkMulti (mcurrent r) (nextBuffer r)
                                     (wrap_uint32 (nextRead r + length)))
          end
        else
          let copied :=
            if 0 <? chunkLeft then
              match slice (current_block bs r) (nextRead r)
                          (wrap_uint32 (nextRead r + chunkLeft)) with
              | None => Panicked "slice bounds out of range"
              | Some src =>
                  if len buf <? offset then Panicked "slice bounds out of range"
                  else Returned (copy_at buf (Z.to_nat offset) src,
                                 wrap_uint32 (offset + chunkLeft),
                                 wrap_uint32 (length - chunkLeft))
              end
            else Returned (buf, offset, length) in
          match copied with
          | Returned (buf', offset', length') =>
              match index (blocks bs) (nextBuffer r) with
              | None => Panicked "index out of range"
              | Some _ =>
                  ReadBytes_multi_for fuel' bs offset' length' buf'
                    (mkMulti (Some (Z.to_nat (nextBuffer r)))
                             (wrap_uint32 (nextBuffer r + 1)) 0)
              end
          | Panicked msg => Panicked msg
          | Running => Running
          end
    end
  else Returned (buf, r).

Definition ReadBytes_multi (fuel : nat) (bs : BytesStore)
           (r : ByteStoreForwardReader) (buf : list byte)
  : outcome (Z * option error * list byte * ByteStoreForwardReader) :=
  match ReadBytes_multi_for fuel bs 0 (wrap_uint32 (len buf)) buf r with
  | Returned (buf', r') => Returned (len buf, None, buf', r')
  | Panicked msg => Panicked msg
  | Running => Running
  end.

(** A store of [count] one-byte blocks, all written ([blockBits = 0]). *)
Definition one_byte_blocks (count : nat) : BytesStore :=
  mkStore (repeat [x00] count) 1 0 0 (Some (Nat.pred count)) 1.

(** The store after [newBytesStore(2)] and six [WriteByte] calls, and the
    store after four. *)
Definition six_bytes : BytesStore :=
  mkStore [[x01; x02; x03; x04]; [x05; x06; x00; x00]] 4 2 3 (Some 1%nat) 2.

Definition four_bytes : BytesStore :=
  mkStore [[x01; x02; x03; x04]] 4 2 3 (Some 0%nat) 4.

(** Writing a list of bytes one by one. *)
Fixpoint WriteAll (data : list byte) (bs : BytesStore) : outcome BytesStore :=
  match data with
  | [] => Returned bs
  | b :: data' =>
      match WriteByte b bs with
      | Returned (_, bs') => WriteAll data' bs'
      | Panicked msg => Panicked msg
      | Running => Running
      end
  end.

(** *** The rest of the store's writer and of its readers *)

(** All the bytes of the store, block after block. *)
Definition flat (bs : BytesStore) : list byte := concat (blocks bs).

(** [self.current = make([]byte, self.blockSize);
     self.blocks = append(self.blocks, self.current); self.nextWrite = 0]. *)
Definition new_block (bs : BytesStore) : BytesStore :=
  mkStore (blocks bs ++ [make (blockSize bs)]) (blockSize bs) (blockBits bs)
          (blockMask bs) (Some (length (blocks bs))) 0.

(** The block [self.current] shares in the writer, [nil] when there is
    none. *)
Definition write_block (bs : BytesStore) : list byte :=
  match current bs with
  | None => []
  | Some cur => nth cur (blocks bs) []
  end.

(** [copy(self.current[self.nextWrite:], src)]. *)
Definition copy_to_current (bs : BytesStore) (src : list byte) : outcome BytesStore :=
  if (nextWrite bs <? 0) || (len (write_block bs) <? nextWrite bs)
  then Panicked "slice bounds out of range"
  else
    match current bs with
    | None => Returned bs
    | Some cur =>
        Returned (mkStore (store (blocks bs) cur
                                 (copy_at (write_block bs)
                                          (Z.to_nat (nextWrite bs)) src))
                          (blockSize bs) (blockBits bs) (blockMask bs)
                          (current bs) (nextWrite bs))
    end.

Definition set_nextWrite (bs : BytesStore) (next : Z) : BytesStore :=
  mkStore (blocks bs) (blockSize bs) (blockBits bs) (blockMask bs)
          (current bs) next.

(** The loop of the [WriteBytes] closure; [buf[lo:hi]] stays within
    [len(buf)], so the capacity of [buf] plays no part. *)
Fixpoint WriteBytes_for (fuel : nat) (offset length : Z) (buf : list byte)
         (bs : BytesStore) : outcome (option error * BytesStore) :=
  if 0 <? length then
    match fuel with
    | O => Running
    | S fuel' =>
        let chunk := wrap_uint32 (blockSize bs - nextWrite bs) in
        if length <=? chunk then
          match slice buf offset (wrap_uint32 (offset + length)) with
          | None => Panicked "slice bounds out of range"
          | Some src =>
              match copy_to_current bs src with
              | Returned bs' =>
                  Returned (None,
                            set_nextWrite bs' (wrap_uint32 (nextWrite bs' + length)))
              | Panicked msg => Panicked msg
              | Running => Running
              end
          end
        else
          let copied :=
            if 0 <? chunk then
              match slice buf offset (wrap_uint32 (offset + chunk)) with
              | None => Panicked "slice bounds out of range"
              | Some src =>
                  match copy_to_current bs src with
                  | Returned bs' =>
                      Returned (bs', wrap_uint32 (offset + chunk),
                                wrap_uint32 (length - chunk))
                  | Panicked msg => Panicked msg
                  | Running => Running
                  end
              end
            else Returned (bs, offset, length) in
          match copied with
          | Returned (bs1, offset1, length1) =>
              WriteBytes_for fuel' offset1 length1 buf (new_block bs1)
          | Panicked msg => Panicked msg
          | Running => Running
          end
    end
  else Returned (None, bs).

Definition WriteBytes (fuel : nat) (buf : list byte) (bs : BytesStore)
  : outcome (option error * BytesStore) :=
  WriteBytes_for fuel 0 (wrap_uint32 (len buf)) buf bs.

(** [ReadByte] of the multi-block reader. *)
Definition ReadByte_multi (bs : BytesStore) (r : ByteStoreForwardReader)
  : outcome (byte * ByteStoreForwardReader) :=
  let loaded :=
    if nextRead r =? blockSize bs then
      match index (blocks bs) (nextBuffer r) with
      | None => Panicked "index out of range"
      | Some _ =>
          Returned (mkMulti (Some (Z.to_nat (nextBuffer r)))
                            (wrap_uint32 (nextBuffer r + 1)) 0)
      end
    else Returned r in
  match loaded with
  | Returned r1 =>
      match index (current_block bs r1) (nextRead r1) with
      | None => Panicked "index out of range"
      | Some ans =>
          Returned (ans, mkMulti (mcurrent r1) (nextBuffer r1)
                                 (wrap_uint32 (nextRead r1 + 1)))
      end
  | Panicked msg => Panicked msg
  | Running => Running
  end.

(** [skipBytes(count int32)] of the multi-block reader:
    [self.setPosition(self.getPosition() + int64(count))]. *)
Definition skipBytes (bs : BytesStore) (count : Z) (r : ByteStoreForwardReader)
  : outcome ByteStoreForwardReader :=
  setPosition bs (wrap_int64 (getPosition bs r + count)) r.

(** [ReadByte] of the single-block reader: [self.pos++;
    return self.bytes[self.pos-1]], where [self.bytes] is the field that is
    never assigned, [nil].  The reader is given back also when the call
    panics. *)
Definition ReadByte_single (r : ForwardBytesReader)
  : outcome byte * ForwardBytesReader :=
  let r' := mkForward (wrap_int32 (pos r + 1)) in
  match index (@nil byte) (wrap_int32 (pos r' - 1)) with
  | None => (Panicked "index out of range", r')
  | Some ans => (Returned ans, r')
  end.

Definition skipBytes_single (count : Z) (r : ForwardBytesReader) : ForwardBytesReader :=
  mkForward (wrap_int32 (pos r + count)).

(** A multi-block reader that stands at position [q]. *)
Record at_position (bs : BytesStore) (r : ByteStoreForwardReader) (q : Z)
  : Prop := mkAt {
  at_read : 0 <= nextRead r <= blockSize bs;
  at_buffer : 0 <= nextBuffer r <= len (blocks bs);
  at_q : q = (nextBuffer r - 1) * blockSize bs + nextRead r;
  at_current : nextRead r < blockSize bs ->
               1 <= nextBuffer r
               /\ mcurrent r = Some (Z.to_nat (nextBuffer r - 1))
}.

(** A store whose last block is the one [current] shares; after a new
    block has been appended nothing is written to it yet. *)
Record open_ok (bs : BytesStore) : Prop := mkOpenOk {
  o_store : store_ok bs;
  o_size : 1 <= blockSize bs;
  o_blocks : blocks bs <> [];
  o_current : current bs = Some (Nat.pred (length (blocks bs)))
}.

(** What the writer keeps besides [store_ok]: [current] is the last block,
    and a store without blocks is one in which nothing fits. *)
Record writer_ok (bs : BytesStore) : Prop := mkWriterOk {
  w_store : store_ok bs;
  w_size : 1 <= blockSize bs;
  w_current : match blocks bs with
              | [] => current bs = None /\ nextWrite bs = blockSize bs
              | _ :: _ => current bs = Some (Nat.pred (length (blocks bs)))
                          /\ 1 <= nextWrite bs
              end
}.

End Bytes.

(** * Properties *)

(** ** Slices *)

Lemma index_app_here {A : Type} (done rest : list A) (c : A) :
  index (done ++ c :: rest) (len done) = Some c.
Proof.
  unfold index, len.
  destruct (Z.ltb_spec (Z.of_nat (length done)) 0) as [Hneg | _]; [lia |].
  rewrite Nat2Z.id, nth_error_app2 by lia.
  now rewrite Nat.sub_diag.
Qed.

Lemma store_app_here {A : Type} (done rest : list A) (c v : A) :
  store (done ++ c :: rest) (length done) v = done ++ v :: rest.
Proof.
  induction done as [| d done IH]; simpl; [reflexivity | now rewrite IH].
Qed.

Lemma len_app {A : Type} (a b : list A) : len (a ++ b) = len a + len b.
Proof. unfold len. rewrite length_app. lia. Qed.

Lemma len_cons {A : Type} (a : A) (b : list A) : len (a :: b) = 1 + len b.
Proof. unfold len. simpl length. lia. Qed.

Lemma len_nonneg {A : Type} (a : list A) : 0 <= len a.
Proof. unfold len. lia. Qed.

(** Goals that compare slice lengths. *)
Ltac len_arith :=
  repeat (rewrite len_app || rewrite len_cons);
  unfold len; cbn [length]; lia.


(** ** Deletion policies *)

Section PolicyFacts.

Import Policy.

Lemma indices_snoc (from : Z) (k : nat) :
  indices from (S k) = indices from k ++ [from + Z.of_nat k].
Proof.
  revert from; induction k as [| k IH]; intros from.
  - simpl. now rewrite Z.add_0_r.
  - change (indices from (S (S k))) with (from :: indices (from + 1) (S k)).
    rewrite IH. simpl. do 3 f_equal. lia.
Qed.

Lemma In_indices (from : Z) (k : nat) (i : Z) :
  In i (indices from k) <-> from <= i < from + Z.of_nat k.
Proof.
  revert from; induction k as [| k IH]; intros from; simpl.
  - lia.
  - rewrite IH. lia.
Qed.

Lemma onCommit_for_stop (fuel : nat) (i limit : Z)
      (commits : list IndexCommit) (calls : list Z) :
  limit - 1 <= i ->
  onCommit_for fuel i limit commits calls = Returned (commits, calls).
Proof.
  intros Hge.
  destruct fuel; simpl;
    destruct (Z.ltb_spec i (limit - 1)); (lia || reflexivity).
Qed.

Lemma onCommit_for_step (fuel : nat) (i limit : Z)
      (commits : list IndexCommit) (calls : list Z) (c : IndexCommit) :
  i < limit - 1 ->
  index commits i = Some c ->
  onCommit_for (S fuel) i limit commits calls
  = onCommit_for fuel (i + 1) limit
                 (store commits (Z.to_nat i) (Delete c)) (calls ++ [i]).
Proof.
  intros Hlt Hidx. simpl.
  destruct (Z.ltb_spec i (limit - 1)); [| lia].
  now rewrite Hidx.
Qed.

(** The loop, started at position [len done] with [rest] and the newest
    commit still ahead, deletes [rest] and stops in front of the newest. *)
Lemma onCommit_for_spec (rest : list IndexCommit) :
  forall (done : list IndexCommit) (newest : IndexCommit) (calls : list Z)
         (fuel : nat),
    (length rest <= fuel)%nat ->
    onCommit_for fuel (len done) (len (done ++ rest ++ [newest]))
                 (done ++ rest ++ [newest]) calls
    = Returned (done ++ map Delete rest ++ [newest],
                calls ++ indices (len done) (length rest)).
Proof.
  induction rest as [| c rest IH]; intros done newest calls fuel Hfuel.
  - rewrite onCommit_for_stop.
    + simpl. now rewrite app_nil_r.
    + cbn [app]. len_arith.
  - destruct fuel as [| fuel]; [simpl in Hfuel; lia |].
    change ((c :: rest) ++ [newest]) with (c :: rest ++ [newest]).
    rewrite (onCommit_for_step fuel _ _ _ _ c).
    + unfold len at 3. rewrite Nat2Z.id, store_app_here.
      replace (done ++ Delete c :: rest ++ [newest])
        with ((done ++ [Delete c]) ++ rest ++ [newest])
        by (now rewrite <- app_assoc).
      replace (len (done ++ c :: rest ++ [newest]))
        with (len ((done ++ [Delete c]) ++ rest ++ [newest]))
        by len_arith.
      replace (len done + 1) with (len (done ++ [Delete c])) by len_arith.
      rewrite IH by (simpl in Hfuel; lia).
      f_equal. f_equal.
      * now rewrite <- !app_assoc.
      * rewrite <- app_assoc. simpl. do 2 f_equal.
        f_equal. len_arith.
    + len_arith.
    + apply index_app_here.
Qed.

Lemma onCommit_snoc (p : KeepOnlyLastCommitDeletionPolicy)
      (older : list IndexCommit) (newest : IndexCommit) :
  onCommit p (older ++ [newest])
  = Returned (mkHook (map Delete older ++ [newest])
                     (indices 0 (length older)) None).
Proof.
  unfold onCommit.
  change (onCommit_for (length (older ++ [newest])) 0
                       (len (older ++ [newest])) (older ++ [newest]) [])
    with (onCommit_for (length (older ++ [newest])) (len (@nil IndexCommit))
                       (len ([] ++ older ++ [newest]))
                       ([] ++ older ++ [newest]) []).
  rewrite onCommit_for_spec by (rewrite length_app; simpl; lia).
  reflexivity.
Qed.

Lemma retain_last_only_snoc (older : list IndexCommit) (newest : IndexCommit) :
  retain_last_only (older ++ [newest]) = map Delete older ++ [newest].
Proof.
  unfold retain_last_only. rewrite rev_app_distr. simpl.
  now rewrite <- map_rev, rev_involutive.
Qed.

(** Whatever the list, [onCommit] returns, and what it leaves is the
    retain-last-only strategy of the specification. *)
Lemma onCommit_retain_last_only (p : KeepOnlyLastCommitDeletionPolicy)
      (commits : list IndexCommit) :
  onCommit p commits
  = Returned (mkHook (retain_last_only commits)
                     (indices 0 (Nat.pred (length commits))) None).
Proof.
  destruct (rev commits) as [| newest older] eqn:Hrev.
  - apply (f_equal (@rev _)) in Hrev. rewrite rev_involutive in Hrev.
    subst commits. reflexivity.
  - apply (f_equal (@rev _)) in Hrev. rewrite rev_involutive in Hrev.
    simpl in Hrev. subst commits.
    rewrite onCommit_snoc, retain_last_only_snoc, length_app.
    simpl. now rewrite Nat.add_1_r.
Qed.

(** C3.  For every non-empty list of commits, oldest first,
    [KeepOnlyLastCommitDeletionPolicy.onCommit] calls [Delete] on every
    commit except the last element (once each, at the indices
    [0 .. len-2], in order), never calls [Delete] at the last index, leaves
    the last commit as it was, and returns [nil]. *)
Theorem onCommit_deletes_all_but_last
        (p : KeepOnlyLastCommitDeletionPolicy) (commits : list IndexCommit) :
  commits <> [] ->
  exists older newest,
    commits = older ++ [newest]
    /\ onCommit p commits
       = Returned (mkHook (map Delete older ++ [newest])
                          (indices 0 (length older)) None)
    /\ (forall i, In i (indices 0 (length older)) <-> 0 <= i < len commits - 1)
    /\ ~ In (len commits - 1) (indices 0 (length older)).
Proof.
  intros Hne.
  destruct (exists_last Hne) as [older [newest Heq]].
  exists older, newest. subst commits.
  split; [reflexivity |]. split; [apply onCommit_snoc |].
  assert (Hlen : len (older ++ [newest]) - 1 = Z.of_nat (length older))
    by len_arith.
  split.
  - intros i. rewrite In_indices, Hlen. lia.
  - rewrite In_indices, Hlen. lia.
Qed.

Lemma onCommit_deletes_all_but_last_witness :
  let c1 := mkCommit "segments_1" false in
  let c2 := mkCommit "segments_2" false in
  let c3 := mkCommit "segments_3" false in
  exists older newest,
    [c1; c2; c3] = older ++ [newest]
    /\ onCommit DEFAULT_DELETION_POLICY [c1; c2; c3]
       = Returned (mkHook (map Delete older ++ [newest])
                          (indices 0 (length older)) None)
    /\ (forall i, In i (indices 0 (length older)) <-> 0 <= i < len [c1; c2; c3] - 1)
    /\ ~ In (len [c1; c2; c3] - 1) (indices 0 (length older)).
Proof.
  intros c1 c2 c3.
  apply (onCommit_deletes_all_but_last DEFAULT_DELETION_POLICY [c1; c2; c3]).
  discriminate.
Defined.

(** C4.  For every list of commits,
    [KeepOnlyLastCommitDeletionPolicy.onInit] performs exactly the
    deletions of [onCommit] on the same list and returns the same result:
    both return [nil] after deleting every commit but the last. *)
Theorem onInit_same_as_onCommit
        (p : KeepOnlyLastCommitDeletionPolicy) (commits : list IndexCommit) :
  onInit p commits = onCommit p commits
  /\ onInit p commits
     = Returned (mkHook (retain_last_only commits)
                        (indices 0 (Nat.pred (length commits))) None).
Proof.
  split.
  - reflexivity.
  - unfold onInit. apply onCommit_retain_last_only.
Qed.

(** C10.  [KeepOnlyLastCommitDeletionPolicy.onCommit] on the empty list, or
    on a list of exactly one commit, calls [Delete] on no commit and
    returns [nil]; it returns normally, so no index leaves the list's
    bounds. *)
Theorem onCommit_short_lists (p : KeepOnlyLastCommitDeletionPolicy) :
  onCommit p [] = Returned (mkHook [] [] None)
  /\ forall c : IndexCommit, onCommit p [c] = Returned (mkHook [c] [] None).
Proof.
  split; [| intros c]; unfold onCommit; simpl; reflexivity.
Qed.

End PolicyFacts.

(** ** The index file deleter *)

(** C1.  [IndexFileDeleter.checkpoint] keeps no reference count and deletes
    no file: every call panics with "not implemented yet", whatever the
    generation and whether or not it is a commit, and so does every
    non-empty sequence of checkpoints, at its first call. *)
Theorem checkpoint_not_implemented
        (del : Deleter.IndexFileDeleter) (infos : Deleter.SegmentInfos)
        (isCommit : bool) (rest : list (Deleter.SegmentInfos * bool)) :
  Deleter.checkpoint del infos isCommit = Panicked "not implemented yet"
  /\ Deleter.checkpoints del ((infos, isCommit) :: rest)
     = Panicked "not implemented yet".
Proof.
  split.
  - unfold Deleter.checkpoint. reflexivity.
  - cbn [Deleter.checkpoints]. unfold Deleter.checkpoint. reflexivity.
Qed.

(** ** The serial merge scheduler *)

Section MergeFacts.

Import Merge.

Variable mergeError : OneMerge -> option error.

Local Abbreviation entered := (Merge.entered mergeError).

Lemma nextMerge_pops (queue done : list OneMerge) :
  nextMerge (mkWriter queue done) = (hd_error queue, mkWriter (tl queue) done).
Proof. destruct queue; reflexivity. Qed.

Lemma Merge_entered (queue done : list OneMerge) :
  Merge mergeError (mkWriter queue done)
  = entered (length queue) queue done.
Proof. unfold Merge, Merge.entered. now rewrite nextMerge_pops. Qed.

Lemma entered_empty (fuel : nat) (done : list OneMerge) :
  entered fuel [] done = Returned (None, mkWriter [] done).
Proof. destruct fuel; reflexivity. Qed.

Lemma entered_success (fuel : nat) (m : OneMerge) (queue done : list OneMerge) :
  mergeError m = None ->
  entered (S fuel) (m :: queue) done = entered fuel queue (done ++ [m]).
Proof.
  intros Hok. unfold Merge.entered. cbn [hd_error tl Merge_for].
  unfold merge. cbn [pendingMerges executed].
  now rewrite nextMerge_pops, Hok.
Qed.

Lemma entered_failure (fuel : nat) (m : OneMerge) (queue done : list OneMerge)
      (e : error) :
  mergeError m = Some e ->
  entered (S fuel) (m :: queue) done
  = Returned (Some e, mkWriter (tl queue) (done ++ [m])).
Proof.
  intros Hfail. unfold Merge.entered. cbn [hd_error tl Merge_for].
  unfold merge. cbn [pendingMerges executed].
  rewrite nextMerge_pops, Hfail.
  destruct fuel, (hd_error queue); reflexivity.
Qed.

Lemma entered_prefix (pre : list OneMerge) :
  forall (fuel : nat) (rest done : list OneMerge),
    (forall m, In m pre -> mergeError m = None) ->
    entered (length pre + fuel) (pre ++ rest) done
    = entered fuel rest (done ++ pre).
Proof.
  induction pre as [| m pre IH]; intros fuel rest done Hok.
  - simpl. now rewrite app_nil_r.
  - cbn [length app Nat.add].
    rewrite entered_success by (apply Hok; now left).
    rewrite IH by (intros x Hx; apply Hok; now right).
    now rewrite <- app_assoc.
Qed.

(** When no queued merge fails, [Merge] executes all of them in queue
    order, empties the queue and returns [nil]. *)
Lemma Merge_drains (queue done : list OneMerge) :
  (forall m, In m queue -> mergeError m = None) ->
  Merge mergeError (mkWriter queue done)
  = Returned (None, mkWriter [] (done ++ queue)).
Proof.
  intros Hok. rewrite Merge_entered.
  replace (length queue) with (length queue + 0)%nat by lia.
  rewrite <- (app_nil_r queue) at 2.
  rewrite entered_prefix by assumption.
  apply entered_empty.
Qed.

Lemma first_failure (queue : list OneMerge) :
  (forall m, In m queue -> mergeError m = None)
  \/ exists pre m post e,
      queue = pre ++ m :: post
      /\ (forall x, In x pre -> mergeError x = None)
      /\ mergeError m = Some e.
Proof.
  induction queue as [| m queue IH].
  - left. intros m [].
  - destruct (mergeError m) as [e |] eqn:Hm.
    + right. exists [], m, queue, e. repeat split; [intros x [] | exact Hm].
    + destruct IH as [Hall | [pre [m' [post [e [-> [Hpre Hm']]]]]]].
      * left. intros x [<- | Hx]; [exact Hm | now apply Hall].
      * right. exists (m :: pre), m', post, e.
        repeat split; [| exact Hm'].
        intros x [<- | Hx]; [exact Hm | now apply Hpre].
Qed.

(** C2.  [SerialMergeScheduler.Merge] executes the queued merges one at a
    time in queue order, stops at the first merge whose execution fails and
    returns its error, executing nothing after it; but the loop's post
    statement has by then popped the merge that follows the failing one, so
    only the merges after that one are still queued. *)
Theorem Merge_first_error
        (pre post done : list OneMerge) (m : OneMerge) (e : error) :
  (forall x, In x pre -> mergeError x = None) ->
  mergeError m = Some e ->
  Merge mergeError (mkWriter (pre ++ m :: post) done)
  = Returned (Some e, mkWriter (tl post) (done ++ pre ++ [m])).
Proof.
  intros Hok Hfail. rewrite Merge_entered.
  replace (length (pre ++ m :: post))
    with (length pre + S (length post))%nat
    by (rewrite length_app; reflexivity).
  rewrite entered_prefix by assumption.
  rewrite (entered_failure _ _ _ _ e) by assumption.
  now rewrite <- app_assoc.
Qed.

(** [Merge] always returns: the queue it is given bounds the loop. *)
Lemma Merge_returns (writer : IndexWriter) :
  exists err writer', Merge mergeError writer = Returned (err, writer').
Proof.
  destruct writer as [queue done].
  destruct (first_failure queue) as [Hall | [pre [m [post [e [-> [Hpre Hm]]]]]]].
  - eexists; eexists. now apply Merge_drains.
  - rewrite Merge_entered.
    replace (length (pre ++ m :: post))
      with (length pre + S (length post))%nat
      by (rewrite length_app; reflexivity).
    rewrite entered_prefix by assumption.
    rewrite (entered_failure _ _ _ _ e) by assumption.
    eexists; eexists; reflexivity.
Qed.

End MergeFacts.

(** The specification's example: merges [m1, m2] where [m1] fails.  [m1]'s
    error is returned and [m2] is not executed, but [m2] is no longer in
    the queue either. *)
Lemma Merge_first_error_witness :
  Merge.Merge Merge.m1_fails (Merge.mkWriter [1; 2]%nat [])
  = Returned (Some "m1 failed"%string, Merge.mkWriter [] [1%nat]).
Proof.
  apply (Merge_first_error Merge.m1_fails [] [2%nat] [] 1%nat "m1 failed"%string).
  - intros x [].
  - reflexivity.
Defined.

(** ** Lock polling *)

Lemma attempts_app (a b : list Lock.event) :
  Lock.attempts (a ++ b) = (Lock.attempts a + Lock.attempts b)%nat.
Proof.
  induction a as [| [locked err | ms] a IH]; simpl; [reflexivity | |];
    now rewrite IH.
Qed.

Lemma slept_app (a b : list Lock.event) :
  Lock.slept (a ++ b) = Lock.slept a + Lock.slept b.
Proof.
  induction a as [| [locked err | ms] a IH]; simpl; [reflexivity | |];
    rewrite IH; lia.
Qed.

Section LockFacts.

Import Lock.

Variable Self : Type.
Variable Obtain : LockImpl Self -> (bool * option error) * LockImpl Self.

Local Abbreviation call_Obtain := (Lock.call_Obtain Obtain).
Local Abbreviation ObtainWithin_for := (Lock.ObtainWithin_for Obtain).
Local Abbreviation ObtainWithin := (Lock.ObtainWithin Obtain).

Lemma call_Obtain_log (w : world Self) :
  log (snd (call_Obtain w))
  = log w ++ [EvObtain (fst (fst (call_Obtain w))) (snd (fst (call_Obtain w)))].
Proof.
  unfold Lock.call_Obtain. destruct (Obtain (lock w)) as [r l]. reflexivity.
Qed.

Lemma call_Obtain_result (w : world Self) :
  fst (call_Obtain w) = fst (Obtain (lock w)).
Proof.
  unfold Lock.call_Obtain. destruct (Obtain (lock w)) as [r l]. reflexivity.
Qed.

(** One turn of the loop, case by case. *)
Lemma for_locked (fuel : nat) (t m sc : Z) (err : option error) (w : world Self) :
  ObtainWithin_for fuel t m sc true err w
  = (Returned (true, option_map ObtainError err), w).
Proof. destruct fuel; reflexivity. Qed.

Lemma for_time_out (fuel : nat) (t m sc : Z) (err : option error) (w : world Self) :
  t <> LOCK_OBTAIN_WAIT_FOREVER ->
  m <= sc ->
  ObtainWithin_for fuel t m sc false err w
  = (Returned (false, Some (LockObtainTimeOut (failureReason (lock w)))), w).
Proof.
  intros Ht Hsc.
  destruct fuel; simpl;
    (destruct (Z.eqb_spec t LOCK_OBTAIN_WAIT_FOREVER); [contradiction |]);
    (destruct (Z.leb_spec m sc); [reflexivity | lia]).
Qed.

Lemma for_poll (fuel : nat) (t m sc : Z) (err : option error) (w : world Self) :
  t = LOCK_OBTAIN_WAIT_FOREVER \/ sc < m ->
  ObtainWithin_for (S fuel) t m sc false err w
  = ObtainWithin_for fuel t m (wrap_int64 (sc + 1))
                     (fst (fst (call_Obtain (Sleep LOCK_POOL_INTERVAL w))))
                     (snd (fst (call_Obtain (Sleep LOCK_POOL_INTERVAL w))))
                     (snd (call_Obtain (Sleep LOCK_POOL_INTERVAL w))).
Proof.
  intros Hgo. cbn [Lock.ObtainWithin_for negb].
  replace (negb (t =? LOCK_OBTAIN_WAIT_FOREVER) && (m <=? sc)) with false.
  - destruct (call_Obtain (Sleep LOCK_POOL_INTERVAL w)) as [[l e] w2].
    reflexivity.
  - symmetry. destruct Hgo as [-> | Hlt].
    + reflexivity.
    + apply andb_false_iff. right. now apply Z.leb_gt.
Qed.

Lemma for_out_of_fuel (t m sc : Z) (err : option error) (w : world Self) :
  t = LOCK_OBTAIN_WAIT_FOREVER \/ sc < m ->
  ObtainWithin_for 0 t m sc false err w = (Running, w).
Proof.
  intros Hgo. cbn [Lock.ObtainWithin_for negb].
  replace (negb (t =? LOCK_OBTAIN_WAIT_FOREVER) && (m <=? sc)) with false;
    [reflexivity |].
  symmetry. destruct Hgo as [-> | Hlt].
  - reflexivity.
  - apply andb_false_iff. right. now apply Z.leb_gt.
Qed.

(** [ObtainWithin] up to the loop. *)
Lemma ObtainWithin_unfold (fuel : nat) (t : Z) (w : world Self) :
  ObtainWithin fuel t w
  = let first := call_Obtain (mkWorld (mkLock (self (lock w)) None) (log w)) in
    match snd (fst first) with
    | Some e => (Returned (fst (fst first), Some (ObtainError e)), snd first)
    | None =>
        if (0 <=? t) || (t =? LOCK_OBTAIN_WAIT_FOREVER)
        then ObtainWithin_for fuel t (Z.quot t LOCK_POOL_INTERVAL) 0
                              (fst (fst first)) None (snd first)
        else (Panicked (invalid_timeout_message t), snd first)
    end.
Proof.
  unfold Lock.ObtainWithin, assert2. cbv zeta.
  destruct (call_Obtain (mkWorld (mkLock (self (lock w)) None) (log w)))
    as [[l [e |]] w1]; cbn [fst snd]; [reflexivity |].
  destruct ((0 <=? t) || (t =? LOCK_OBTAIN_WAIT_FOREVER)); reflexivity.
Qed.

Lemma busy_call (w : world Self) :
  (forall l, fst (Obtain l) = (false, None)) ->
  fst (call_Obtain w) = (false, None)
  /\ log (snd (call_Obtain w)) = log w ++ [EvObtain false None].
Proof.
  intros Hbusy. pose proof (call_Obtain_log w) as Hlog.
  rewrite call_Obtain_result, Hbusy in *. now split.
Qed.

(** C5, as the code has it.  [ObtainWithin(2500)] on a lock whose [Obtain]
    always returns [(false, nil)] polls at 1000 ms intervals: it attempts
    to obtain the lock three times, sleeping 1000 ms after the first and
    after the second attempt ([maxSleepCount = 2500 / 1000 = 2]), and then
    fails with the time-out error; it has slept 2000 ms by then. *)
Theorem ObtainWithin_2500_busy (w : world Self) (fuel : nat) :
  (forall l, fst (Obtain l) = (false, None)) ->
  (2 <= fuel)%nat ->
  exists w',
    ObtainWithin fuel 2500 w
    = (Returned (false, Some (LockObtainTimeOut (failureReason (lock w')))), w')
    /\ log w' = log w ++ [EvObtain false None; EvSleep LOCK_POOL_INTERVAL;
                          EvObtain false None; EvSleep LOCK_POOL_INTERVAL;
                          EvObtain false None]
    /\ attempts (log w') = (attempts (log w) + 3)%nat
    /\ slept (log w') = slept (log w) + 2000.
Proof.
  intros Hbusy Hfuel.
  destruct fuel as [| [| fuel]]; try lia.
  rewrite ObtainWithin_unfold. cbv zeta.
  set (w0 := mkWorld (mkLock (self (lock w)) None) (log w)).
  destruct (busy_call w0 Hbusy) as [R0 L0]. rewrite R0. cbn [fst snd].
  change ((0 <=? 2500) || (2500 =? LOCK_OBTAIN_WAIT_FOREVER)) with true.
  cbv iota.
  change (Z.quot 2500 LOCK_POOL_INTERVAL) with 2.
  set (w1 := snd (call_Obtain w0)) in *.
  rewrite for_poll by (right; lia).
  destruct (busy_call (Sleep LOCK_POOL_INTERVAL w1) Hbusy) as [R1 L1].
  rewrite R1. cbn [fst snd].
  set (w2 := snd (call_Obtain (Sleep LOCK_POOL_INTERVAL w1))) in *.
  change (wrap_int64 (0 + 1)) with 1.
  rewrite for_poll by (right; lia).
  destruct (busy_call (Sleep LOCK_POOL_INTERVAL w2) Hbusy) as [R2 L2].
  rewrite R2. cbn [fst snd].
  set (w3 := snd (call_Obtain (Sleep LOCK_POOL_INTERVAL w2))) in *.
  change (wrap_int64 (1 + 1)) with 2.
  rewrite for_time_out by (try discriminate; lia).
  exists w3.
  assert (Hlog : log w3 = log w ++ [EvObtain false None; EvSleep LOCK_POOL_INTERVAL;
                                     EvObtain false None; EvSleep LOCK_POOL_INTERVAL;
                                     EvObtain false None]).
  { rewrite L2. cbn [Sleep log]. rewrite L1. cbn [Sleep log]. rewrite L0.
    subst w0. cbn [log]. now rewrite <- !app_assoc. }
  split; [reflexivity |]. split; [exact Hlog |].
  rewrite Hlog, attempts_app, slept_app. simpl. split; lia.
Qed.

(** C6, as the code has it.  With an invalid time-out (negative and not
    the wait-forever sentinel) [ObtainWithin] first makes one [Obtain]
    attempt.  When that attempt returns an error, [ObtainWithin] returns
    this error and the time-out is not reported; otherwise it panics with
    the invalid-time-out message, whether or not the attempt obtained the
    lock, before any sleep or second attempt. *)
Theorem ObtainWithin_invalid_timeout (w : world Self) (fuel : nat) (t : Z) :
  t < 0 ->
  t <> LOCK_OBTAIN_WAIT_FOREVER ->
  exists locked err w1,
    call_Obtain (mkWorld (mkLock (self (lock w)) None) (log w))
    = ((locked, err), w1)
    /\ log w1 = log w ++ [EvObtain locked err]
    /\ ObtainWithin fuel t w
       = (match err with
          | Some e => Returned (locked, Some (ObtainError e))
          | None => Panicked (invalid_timeout_message t)
          end, w1).
Proof.
  intros Hneg Hsentinel.
  rewrite ObtainWithin_unfold. cbv zeta.
  pose proof (call_Obtain_log (mkWorld (mkLock (self (lock w)) None) (log w)))
    as Hlog.
  destruct (call_Obtain (mkWorld (mkLock (self (lock w)) None) (log w)))
    as [[locked err] w1].
  cbn [fst snd log] in *.
  exists locked, err, w1.
  split; [reflexivity |]. split; [exact Hlog |].
  destruct err as [e |]; [reflexivity |].
  destruct (Z.leb_spec 0 t); [lia |].
  destruct (Z.eqb_spec t LOCK_OBTAIN_WAIT_FOREVER); [contradiction |].
  reflexivity.
Qed.

Lemma last_cons_default (A : Type) (l : list A) (a d : A) :
  last (a :: l) d = last l a.
Proof.
  revert a d. induction l as [| b l IH]; intros a d; [reflexivity |].
  change (last (a :: b :: l) d) with (last (b :: l) d).
  now rewrite (IH b d), (IH b a).
Qed.

Lemma Forall_removelast_last (A : Type) (P : A -> Prop) (l : list A) (a : A) :
  Forall P (removelast (a :: l)) -> P (last l a) -> Forall P (a :: l).
Proof.
  intros Hinit Hlast.
  rewrite (app_removelast_last a (l := a :: l)) by discriminate.
  rewrite last_cons_default.
  apply Forall_app. split; [exact Hinit | now constructor].
Qed.

Lemma polls_cons (r : bool * option error) (rest : list (bool * option error)) :
  polls (r :: rest)
  = EvSleep LOCK_POOL_INTERVAL :: EvObtain (fst r) (snd r) :: polls rest.
Proof. reflexivity. Qed.

(** The loop under the wait-forever sentinel: it never panics, every turn
    sleeps once and makes one attempt, and it returns at the first attempt
    that obtains the lock and at no other. *)
Lemma for_forever (fuel : nat) :
  forall (m sc : Z) (locked : bool) (err : option error) (w : world Self),
  exists rest : list (bool * option error),
    log (snd (ObtainWithin_for fuel LOCK_OBTAIN_WAIT_FOREVER m sc locked err w))
    = log w ++ polls rest
    /\ Forall (fun r => fst r = false) (removelast ((locked, err) :: rest))
    /\ match fst (ObtainWithin_for fuel LOCK_OBTAIN_WAIT_FOREVER m sc
                                   locked err w) with
       | Returned r =>
           fst (last rest (locked, err)) = true
           /\ r = (true, option_map ObtainError (snd (last rest (locked, err))))
       | Running =>
           length rest = fuel /\ fst (last rest (locked, err)) = false
       | Panicked _ => False
       end.
Proof.
  induction fuel as [| fuel IH]; intros m sc locked err w.
  - exists []. rewrite app_nil_r. destruct locked.
    + rewrite for_locked. cbn. repeat split. constructor.
    + rewrite for_out_of_fuel by now left. cbn. repeat split. constructor.
  - destruct locked.
    + exists []. rewrite app_nil_r, for_locked. cbn. repeat split. constructor.
    + rewrite for_poll by now left.
      pose proof (call_Obtain_log (Sleep LOCK_POOL_INTERVAL w)) as Hlog.
      destruct (call_Obtain (Sleep LOCK_POOL_INTERVAL w)) as [[l e] w2].
      cbn [fst snd Sleep log] in *.
      destruct (IH m (wrap_int64 (sc + 1)) l e w2)
        as [rest [Hrest [Hfailed Hout]]].
      exists ((l, e) :: rest).
      rewrite last_cons_default, polls_cons.
      split; [| split].
      * rewrite Hrest, Hlog, <- !app_assoc. reflexivity.
      * change (removelast ((false, err) :: (l, e) :: rest))
          with ((false, err) :: removelast ((l, e) :: rest)).
        constructor; [reflexivity | exact Hfailed].
      * destruct (fst (ObtainWithin_for fuel LOCK_OBTAIN_WAIT_FOREVER m
                                        (wrap_int64 (sc + 1)) l e w2))
          as [r | msg |]; [exact Hout | exact Hout |].
        destruct Hout as [Hlen Hlast]. cbn [length fst].
        split; [now rewrite Hlen | exact Hlast].
Qed.

(** On a lock that no attempt obtains the loop is still running after any
    number of turns, whatever errors the attempts return. *)
Lemma for_forever_never_obtained (fuel : nat) :
  (forall l, fst (fst (Obtain l)) = false) ->
  forall (m sc : Z) (err : option error) (w : world Self),
    fst (ObtainWithin_for fuel LOCK_OBTAIN_WAIT_FOREVER m sc false err w)
    = Running.
Proof.
  intros Hnever.
  induction fuel as [| fuel IH]; intros m sc err w.
  - now rewrite for_out_of_fuel by now left.
  - rewrite for_poll by now left.
    pose proof (call_Obtain_result (Sleep LOCK_POOL_INTERVAL w)) as Hres.
    pose proof (Hnever (lock (Sleep LOCK_POOL_INTERVAL w))) as Hfalse.
    rewrite <- Hres in Hfalse. rewrite Hfalse. apply IH.
Qed.

(** C7, as the code has it.  [ObtainWithin] called with
    [LOCK_OBTAIN_WAIT_FOREVER] never returns a time-out error and never
    panics.  It makes a first [Obtain] attempt and then sleeps one poll
    interval before every further attempt; every attempt but the last one
    it made left the lock unobtained.  It returns in two cases only, with
    what its last attempt returned: that attempt obtained the lock, or it
    was the first attempt and returned an error, which is then returned at
    once.  An error returned by a later attempt that did not obtain the
    lock is dropped: the loop tests [!locked] alone, so on a lock that no
    attempt obtains and whose first attempt returns no error the call is
    still polling after any number of turns, whatever errors the later
    attempts return.  While it is still polling, every attempt so far
    failed to obtain the lock and the first one returned no error. *)
Theorem ObtainWithin_wait_forever (w : world Self) (fuel : nat) :
  let w0 := mkWorld (mkLock (self (lock w)) None) (log w) in
  let first := fst (call_Obtain w0) in
  let out := ObtainWithin fuel LOCK_OBTAIN_WAIT_FOREVER w in
  (forall e,
      snd first = Some e ->
      out = (Returned (fst first, Some (ObtainError e)), snd (call_Obtain w0)))
  /\ ((forall l, fst (fst (Obtain l)) = false) ->
      snd first = None ->
      fst out = Running)
  /\ exists rest : list (bool * option error),
      log (snd out) = log w ++ EvObtain (fst first) (snd first) :: polls rest
      /\ Forall (fun r => fst r = false) (removelast (first :: rest))
      /\ match fst out with
         | Returned r =>
             r = (fst (last rest first),
                  option_map ObtainError (snd (last rest first)))
             /\ (forall failure, snd r <> Some (LockObtainTimeOut failure))
             /\ (fst (last rest first) = true
                 \/ (rest = [] /\ snd first <> None))
         | Running =>
             length rest = fuel
             /\ Forall (fun r => fst r = false) (first :: rest)
             /\ snd first = None
         | Panicked _ => False
         end.
Proof.
  intros w0 first out. subst out first.
  rewrite ObtainWithin_unfold. cbv zeta. fold w0.
  pose proof (call_Obtain_log w0) as Hlog.
  pose proof (call_Obtain_result w0) as Hres.
  destruct (call_Obtain w0) as [[l0 e0] w1].
  cbn [fst snd] in *. subst w0. cbn [log lock] in Hlog, Hres.
  destruct e0 as [e |].
  - (* the first attempt returned an error *)
    split; [intros e' He'; now inversion He' |].
    split; [intros _ He; discriminate |].
    exists []. cbn [fst snd polls flat_map last removelast].
    split; [exact Hlog |]. split; [constructor |].
    split; [reflexivity |]. split; [intros failure; discriminate |].
    right. split; [reflexivity | discriminate].
  - change ((0 <=? LOCK_OBTAIN_WAIT_FOREVER)
            || (LOCK_OBTAIN_WAIT_FOREVER =? LOCK_OBTAIN_WAIT_FOREVER)) with true.
    cbv iota.
    split; [intros e He; discriminate |].
    split.
    + intros Hnever _.
      pose proof (Hnever (mkLock (self (lock w)) None)) as Hfalse.
      rewrite <- Hres in Hfalse. cbn [fst] in Hfalse. subst l0.
      now apply for_forever_never_obtained.
    + destruct (for_forever fuel (Z.quot LOCK_OBTAIN_WAIT_FOREVER LOCK_POOL_INTERVAL)
                            0 l0 None w1)
        as [rest [Hrest [Hfailed Hout]]].
      exists rest.
      split; [rewrite Hrest, Hlog, <- app_assoc; reflexivity |].
      split; [exact Hfailed |].
      destruct (fst (ObtainWithin_for fuel LOCK_OBTAIN_WAIT_FOREVER
                       (Z.quot LOCK_OBTAIN_WAIT_FOREVER LOCK_POOL_INTERVAL)
                       0 l0 None w1)) as [r | msg |].
      * destruct Hout as [Hlast ->]. rewrite Hlast.
        split; [reflexivity |].
        split; [| now left].
        intros failure. cbn [snd].
        destruct (snd (last rest (l0, None))); discriminate.
      * exact Hout.
      * destruct Hout as [Hlen Hlast].
        split; [exact Hlen |]. split; [| reflexivity].
        apply Forall_removelast_last; assumption.
Qed.

End LockFacts.

(** The specification's example on a lock that is never released. *)
Lemma ObtainWithin_2500_busy_witness :
  exists w',
    Lock.ObtainWithin Lock.busy_Obtain 2 2500 Lock.fresh_world
    = (Returned (false, Some (Lock.LockObtainTimeOut
                                (Lock.failureReason (Lock.lock w')))), w')
    /\ Lock.log w'
       = Lock.log Lock.fresh_world
           ++ [Lock.EvObtain false None; Lock.EvSleep Lock.LOCK_POOL_INTERVAL;
               Lock.EvObtain false None; Lock.EvSleep Lock.LOCK_POOL_INTERVAL;
               Lock.EvObtain false None]
    /\ Lock.attempts (Lock.log w')
       = (Lock.attempts (Lock.log Lock.fresh_world) + 3)%nat
    /\ Lock.slept (Lock.log w') = Lock.slept (Lock.log Lock.fresh_world) + 2000.
Proof.
  apply (ObtainWithin_2500_busy unit Lock.busy_Obtain Lock.fresh_world 2).
  - intros l. reflexivity.
  - apply le_n.
Defined.

(** C5 as stated fails on the time: the call gives up at the third
    attempt, having slept 2000 ms, which is short of the 2.5 to 3.5 seconds
    the claim gives. *)
Lemma ObtainWithin_2500_gives_up_after_2000ms :
  exists r w',
    Lock.ObtainWithin Lock.busy_Obtain 2 2500 Lock.fresh_world = (Returned r, w')
    /\ snd r = Some (Lock.LockObtainTimeOut None)
    /\ Lock.attempts (Lock.log w') = 3%nat
    /\ Lock.slept (Lock.log w') = 2000
    /\ ~ (2500 <= Lock.slept (Lock.log w') <= 3500).
Proof.
  eexists. eexists.
  split; [vm_compute; reflexivity |].
  split; [reflexivity |].
  split; [reflexivity |].
  split; [reflexivity |].
  cbn [Lock.log Lock.slept]. lia.
Qed.

Lemma ObtainWithin_invalid_timeout_witness :
  exists locked err w1,
    Lock.call_Obtain Lock.free_Obtain
      (Lock.mkWorld (Lock.mkLock (Lock.self (Lock.lock Lock.fresh_world)) None)
                    (Lock.log Lock.fresh_world))
    = ((locked, err), w1)
    /\ Lock.log w1 = Lock.log Lock.fresh_world ++ [Lock.EvObtain locked err]
    /\ Lock.ObtainWithin Lock.free_Obtain 3 (-5) Lock.fresh_world
       = (match err with
          | Some e => Returned (locked, Some (Lock.ObtainError e))
          | None => Panicked (Lock.invalid_timeout_message (-5))
          end, w1).
Proof.
  apply (ObtainWithin_invalid_timeout unit Lock.free_Obtain Lock.fresh_world 3 (-5)).
  - reflexivity.
  - discriminate.
Defined.

(** C6 as stated fails twice over.  With [ObtainWithin(-5)] on a lock whose
    [Obtain] fails, the error of [Obtain] is returned and the invalid
    time-out is never reported; on a free lock the report comes only after
    [Obtain] has been attempted, and has obtained the lock. *)
Lemma invalid_timeout_reported_after_Obtain :
  Lock.ObtainWithin Lock.broken_Obtain 3 (-5) Lock.fresh_world
  = (Returned (false, Some (Lock.ObtainError "permission denied"%string)),
     Lock.mkWorld (Lock.mkLock tt None)
                  [Lock.EvObtain false (Some "permission denied"%string)])
  /\ (forall msg w',
         Lock.ObtainWithin Lock.broken_Obtain 3 (-5) Lock.fresh_world
         <> (Panicked msg, w'))
  /\ Lock.ObtainWithin Lock.free_Obtain 3 (-5) Lock.fresh_world
     = (Panicked "lockWaitTimeout should be LOCK_OBTAIN_WAIT_FOREVER or a non-negative number (got -5)",
        Lock.mkWorld (Lock.mkLock tt None) [Lock.EvObtain true None]).
Proof.
  split; [reflexivity |]. split; [| reflexivity].
  intros msg w'. discriminate.
Qed.

(** A lock whose second and later [Obtain] attempts return an error
    without obtaining the lock: the error is dropped and the call is still
    polling after seven turns, as after any other number. *)
Lemma ObtainWithin_wait_forever_witness :
  (forall l, fst (fst (Lock.grumbling_Obtain l)) = false)
  /\ snd (fst (Lock.call_Obtain Lock.grumbling_Obtain
                 (Lock.mkWorld (Lock.mkLock false None) []))) = None
  /\ fst (Lock.ObtainWithin Lock.grumbling_Obtain 7 Lock.LOCK_OBTAIN_WAIT_FOREVER
                            (Lock.mkWorld (Lock.mkLock false None) []))
     = Running.
Proof.
  assert (Hnever : forall l, fst (fst (Lock.grumbling_Obtain l)) = false)
    by (intros [[|] reason]; reflexivity).
  split; [exact Hnever |]. split; [reflexivity |].
  apply (proj1 (proj2 (ObtainWithin_wait_forever
                         bool Lock.grumbling_Obtain
                         (Lock.mkWorld (Lock.mkLock false None) []) 7))).
  - exact Hnever.
  - reflexivity.
Defined.

(** ** The block byte store *)

Lemma wrap_int64_id (z : Z) : in_int64 z -> wrap_int64 z = z.
Proof.
  unfold in_int64, wrap_int64. intros Hz. rewrite Z.mod_small; lia.
Qed.

Lemma wrap_uint32_id (z : Z) : 0 <= z < 2 ^ 32 -> wrap_uint32 z = z.
Proof. unfold wrap_uint32. apply Z.mod_small. Qed.

Section BytesFacts.

Import Bytes.

(** [copy] in terms of the two slices. *)
Lemma copy_firstn_skipn (dst src : list byte) :
  copy dst src = firstn (length dst) src ++ skipn (length src) dst.
Proof.
  revert src; induction dst as [| d dst IH]; intros [| b src]; simpl;
    try reflexivity.
  now rewrite IH.
Qed.

Lemma copy_length (dst src : list byte) : length (copy dst src) = length dst.
Proof.
  revert src; induction dst as [| d dst IH]; intros [| b src]; simpl;
    try reflexivity.
  now rewrite IH.
Qed.

(** The stores the writer builds: what holds of their block size. *)
Lemma blockSize_pow2 (bs : BytesStore) :
  store_ok bs ->
  blockBits bs < 32 ->
  blockSize bs = 2 ^ blockBits bs
  /\ blockMask bs = Z.ones (blockBits bs)
  /\ 1 <= 2 ^ blockBits bs <= 2 ^ 31.
Proof.
  intros [Hbits Hsize Hmask Hnext _] Hlt.
  assert (Hpow : 1 <= 2 ^ blockBits bs <= 2 ^ 31).
  { split.
    - pose proof (Z.pow_pos_nonneg 2 (blockBits bs)). lia.
    - apply Z.pow_le_mono_r; lia. }
  assert (Hs : blockSize bs = 2 ^ blockBits bs).
  { rewrite Hsize, Z.shiftl_1_l. apply wrap_uint32_id. lia. }
  repeat split; try lia; try exact Hs.
  rewrite Hmask, Hs, Z.ones_equiv. unfold Z.pred.
  replace (2 ^ blockBits bs + -1) with (2 ^ blockBits bs - 1) by lia.
  apply wrap_uint32_id. lia.
Qed.

Lemma blockSize_zero (bs : BytesStore) :
  store_ok bs -> 32 <= blockBits bs -> blockSize bs = 0.
Proof.
  intros [Hbits Hsize Hmask Hnext _] Hge.
  rewrite Hsize, Z.shiftl_1_l. unfold wrap_uint32.
  replace (blockBits bs) with ((blockBits bs - 32) + 32) by lia.
  rewrite Z.pow_add_r by lia.
  apply Z.mod_mul. discriminate.
Qed.

Lemma written_within_blocks (bs : BytesStore) :
  store_ok bs -> written bs <= len (blocks bs) * blockSize bs.
Proof.
  intros [Hbits Hsize Hmask Hnext _]. unfold written.
  destruct (blocks bs) as [| b rest] eqn:Hblocks.
  - unfold len. simpl. lia.
  - lia.
Qed.

Lemma index_in_range {A : Type} (s : list A) (i : Z) :
  0 <= i < len s -> exists a, index s i = Some a.
Proof.
  unfold index, len. intros Hi.
  destruct (Z.ltb_spec i 0); [lia |].
  destruct (nth_error s (Z.to_nat i)) as [a |] eqn:Hnth; [now exists a |].
  apply nth_error_None in Hnth. lia.
Qed.

Lemma store_length {A : Type} (s : list A) (i : nat) (v : A) :
  length (store s i v) = length s.
Proof.
  revert i; induction s as [| a s IH]; intros [| i]; simpl; try reflexivity.
  now rewrite IH.
Qed.

Lemma Forall_store {A : Type} (P : A -> Prop) (s : list A) (i : nat) (v : A) :
  Forall P s -> P v -> Forall P (store s i v).
Proof.
  intros Hs Hv. revert i.
  induction Hs as [| a s Ha Hs IH]; intros [| i]; simpl; auto.
Qed.

Lemma index_Some_bounds {A : Type} (s : list A) (i : Z) (a : A) :
  index s i = Some a -> 0 <= i < len s.
Proof.
  unfold index, len. destruct (Z.ltb_spec i 0) as [Hneg | Hpos];
    [discriminate |].
  intros Hnth.
  assert (Hsome : nth_error s (Z.to_nat i) <> None) by congruence.
  apply nth_error_Some in Hsome. lia.
Qed.

Lemma wrap_uint32_nonneg (z : Z) : 0 <= wrap_uint32 z < 2 ^ 32.
Proof. unfold wrap_uint32. apply Z.mod_pos_bound. lia. Qed.

(** [store_ok] is what the writer establishes and keeps. *)
Lemma newBytesStore_ok (bits : Z) :
  0 <= bits < 2 ^ 32 -> store_ok (newBytesStore bits).
Proof.
  intros Hbits. unfold newBytesStore.
  pose proof (wrap_uint32_nonneg (Z.shiftl 1 bits)).
  constructor; cbn [blockBits blockSize blockMask nextWrite blocks];
    try reflexivity; try lia.
  constructor.
Qed.

Lemma WriteByte_ok (b : byte) (bs bs' : BytesStore) (e : option error) :
  store_ok bs ->
  WriteByte b bs = Returned (e, bs') ->
  store_ok bs'.
Proof.
  intros [Hbits Hsize Hmask Hnext Hblocks]. unfold WriteByte.
  pose proof (wrap_uint32_nonneg (Z.shiftl 1 (blockBits bs))) as Hrange.
  rewrite <- Hsize in Hrange.
  destruct (Z.eqb_spec (nextWrite bs) (blockSize bs)) as [Hfull | Hroom].
  - (* a new block is allocated *)
    cbn [current blocks nextWrite blockSize blockBits blockMask].
    rewrite nth_error_app2, Nat.sub_diag by lia. cbn [nth_error].
    destruct (index (make (blockSize bs)) 0) as [old |] eqn:Hidx;
      [| discriminate].
    intros Hret. inversion Hret; subst e bs'. clear Hret.
    apply index_Some_bounds in Hidx.
    assert (Hmake : len (make (blockSize bs)) = blockSize bs).
    { unfold len, make. rewrite repeat_length. lia. }
    constructor; cbn [blockBits blockSize blockMask nextWrite blocks];
      try assumption.
    + rewrite wrap_uint32_id; lia.
    + apply Forall_store.
      * apply Forall_app. split; [assumption |]. now repeat constructor.
      * unfold len in *. now rewrite store_length.
  - (* the current block has room *)
    destruct (current bs) as [cur |]; [| discriminate].
    destruct (nth_error (blocks bs) cur) as [block |] eqn:Hcur;
      [| discriminate].
    destruct (index block (nextWrite bs)) as [old |] eqn:Hidx;
      [| discriminate].
    intros Hret. inversion Hret; subst e bs'. clear Hret.
    apply index_Some_bounds in Hidx.
    assert (Hblock : len block = blockSize bs).
    { apply nth_error_In in Hcur.
      now apply (proj1 (Forall_forall _ _) Hblocks) in Hcur. }
    constructor; cbn [blockBits blockSize blockMask nextWrite blocks];
      try assumption.
    + rewrite wrap_uint32_id; lia.
    + apply Forall_store; [assumption |].
      unfold len in *. now rewrite store_length.
Qed.

(** C9, as the code has it.  For the multi-block forward reader of a store
    with fewer than [2^32] blocks, and every non-negative position [p]
    within the written byte range, [setPosition(p)] succeeds and
    [getPosition()] then returns exactly [p]. *)
Theorem setPosition_getPosition
        (bs : BytesStore) (r : ByteStoreForwardReader) (p : Z) :
  store_ok bs ->
  forwardReader bs = Multi r ->
  len (blocks bs) < 2 ^ 32 ->
  0 <= p < written bs ->
  exists r', setPosition bs p r = Returned r' /\ getPosition bs r' = p.
Proof.
  intros Hok _ Hblocks Hp.
  pose proof (written_within_blocks bs Hok) as Hwritten.
  destruct (Z.lt_ge_cases (blockBits bs) 32) as [Hlt | Hge].
  - destruct (blockSize_pow2 bs Hok Hlt) as [Hsize [Hmask Hpow]].
    destruct Hok as [Hbits _ _ _ _].
    set (B := 2 ^ blockBits bs) in *.
    pose proof (Z.div_mod p B ltac:(lia)) as Hdiv.
    pose proof (Z.mod_pos_bound p B ltac:(lia)) as Hrem.
    pose proof (len_nonneg (blocks bs)) as Hlen.
    assert (Hq : 0 <= p / B < len (blocks bs)).
    { split; [apply Z.div_pos; lia |].
      apply Z.div_lt_upper_bound; [lia |]. rewrite Hsize in Hwritten. lia. }
    unfold setPosition.
    rewrite Z.shiftr_div_pow2 by lia. fold B.
    destruct (index_in_range (blocks bs) (p / B) Hq) as [blk ->].
    eexists; split; [reflexivity |].
    unfold getPosition. cbn [nextBuffer nextRead].
    rewrite Hsize, Hmask, Z.land_ones by lia. fold B.
    rewrite (wrap_int64_id (p / B + 1)) by (unfold in_int64; lia).
    rewrite (wrap_uint32_id (p / B + 1)) by lia.
    replace (p / B + 1 - 1) with (p / B) by lia.
    rewrite (wrap_int64_id (p / B)) by (unfold in_int64; lia).
    assert (Hprod : 0 <= p / B * B <= p) by nia.
    assert (Hp63 : p < 2 ^ 63).
    { rewrite Hsize in Hwritten.
      assert (len (blocks bs) * B <= 2 ^ 32 * 2 ^ 31) by nia. lia. }
    rewrite (wrap_int64_id (p / B * B)) by (unfold in_int64; lia).
    unfold wrap_uint32.
    rewrite Z.mod_mod_divide.
    + rewrite wrap_int64_id by (unfold in_int64; lia). lia.
    + exists (2 ^ (32 - blockBits bs)). unfold B.
      rewrite <- Z.pow_add_r by lia. f_equal. lia.
  - pose proof (blockSize_zero bs Hok Hge) as Hzero.
    rewrite Hzero in Hwritten. lia.
Qed.

(** A store of [2^32] one-byte blocks: the reader's [nextBuffer], a
    [uint32], cannot hold the index after the last block. *)
Lemma setPosition_last_of_2_32 (count : nat) (r : ByteStoreForwardReader) :
  Z.of_nat count = 2 ^ 32 ->
  store_ok (one_byte_blocks count)
  /\ forwardReader (one_byte_blocks count)
     = Multi (mkMulti None 0 (blockSize (one_byte_blocks count)))
  /\ written (one_byte_blocks count) = 2 ^ 32
  /\ setPosition (one_byte_blocks count) (2 ^ 32 - 1) r
     = Returned (mkMulti (Some (Z.to_nat (2 ^ 32 - 1))) 0 0)
  /\ forall cur, getPosition (one_byte_blocks count) (mkMulti cur 0 0) = -1.
Proof.
  intros Hcount.
  assert (Hlen : len (blocks (one_byte_blocks count)) = 2 ^ 32).
  { unfold len, one_byte_blocks. cbn [blocks]. now rewrite repeat_length. }
  split; [| split; [| split; [| split]]].
  - constructor; cbn [one_byte_blocks blockBits blockSize blockMask nextWrite blocks];
      try reflexivity; try lia.
    apply Forall_forall. intros block Hin.
    apply repeat_spec in Hin. now subst block.
  - unfold forwardReader. rewrite Hlen. reflexivity.
  - unfold written. rewrite Hlen.
    destruct count as [| count]; [discriminate |]. reflexivity.
  - unfold setPosition.
    cbn [one_byte_blocks blockBits blockMask blocks].
    rewrite Z.shiftr_0_r. unfold index.
    destruct (Z.ltb_spec (2 ^ 32 - 1) 0) as [Hneg | _]; [lia |].
    rewrite nth_error_repeat by lia.
    rewrite Z.land_0_r. reflexivity.
  - intros cur. reflexivity.
Qed.

(** C8, what the code does.  On a store of exactly one block, [ReadBytes]
    of the single-block reader returns [(len(buf), nil)] and advances the
    position by [len(buf)], but it leaves [buf] as it was and copies [buf]
    into the store's block from the current position on: the arguments of
    [copy] are the wrong way round. *)
Theorem ReadBytes_copies_into_the_store
        (bs : BytesStore) (r : ForwardBytesReader) (buf bytes : list byte) :
  blocks bs = [bytes] ->
  0 <= pos r <= len bytes ->
  forwardReader bs = Single (mkForward 0)
  /\ exists res,
    ReadBytes bs r buf = Returned res
    /\ n res = len buf
    /\ err res = None
    /\ pos (reader_after res) = wrap_int32 (pos r + wrap_int32 (len buf))
    /\ buf_after res = buf
    /\ blocks (store_after res)
       = [firstn (Z.to_nat (pos r)) bytes
            ++ firstn (length bytes - Z.to_nat (pos r)) buf
            ++ skipn (Z.to_nat (pos r) + length buf) bytes].
Proof.
  intros Hone Hpos.
  split; [unfold forwardReader; rewrite Hone; reflexivity |].
  unfold ReadBytes. rewrite Hone. cbn [index Z.ltb Z.compare].
  cbn [Z.to_nat nth_error].
  destruct (Z.ltb_spec (pos r) 0) as [Hneg | _]; [lia |].
  destruct (Z.ltb_spec (len bytes) (pos r)) as [Hbig | _]; [lia |].
  cbn [orb]. eexists. split; [reflexivity |].
  cbn [n err reader_after buf_after store_after blocks pos store].
  repeat split.
  unfold copy_at. rewrite copy_firstn_skipn, length_skipn, skipn_skipn.
  now rewrite (Nat.add_comm (length buf)).
Qed.

End BytesFacts.

Lemma six_bytes_written :
  Bytes.WriteAll [x01; x02; x03; x04; x05; x06] (Bytes.newBytesStore 2)
  = Returned Bytes.six_bytes.
Proof. reflexivity. Qed.

Lemma four_bytes_written :
  Bytes.WriteAll [x01; x02; x03; x04] (Bytes.newBytesStore 2)
  = Returned Bytes.four_bytes.
Proof. reflexivity. Qed.

Lemma setPosition_getPosition_witness :
  exists r',
    Bytes.setPosition Bytes.six_bytes 5 (Bytes.mkMulti None 0 4) = Returned r'
    /\ Bytes.getPosition Bytes.six_bytes r' = 5.
Proof.
  apply (setPosition_getPosition Bytes.six_bytes (Bytes.mkMulti None 0 4) 5).
  - constructor; cbn; try reflexivity; try lia.
    repeat constructor.
  - reflexivity.
  - cbn. lia.
  - cbn. lia.
Defined.

(** C9 as stated fails on a store of [2^32] blocks: at the last written
    position [setPosition] wraps [nextBuffer] to 0 and [getPosition]
    returns -1. *)
Lemma setPosition_getPosition_2_32_blocks :
  Bytes.store_ok (Bytes.one_byte_blocks (Z.to_nat (2 ^ 32)))
  /\ (exists r, Bytes.forwardReader (Bytes.one_byte_blocks (Z.to_nat (2 ^ 32)))
                = Bytes.Multi r)
  /\ 0 <= 2 ^ 32 - 1 < Bytes.written (Bytes.one_byte_blocks (Z.to_nat (2 ^ 32)))
  /\ exists r',
      Bytes.setPosition (Bytes.one_byte_blocks (Z.to_nat (2 ^ 32))) (2 ^ 32 - 1)
                        (Bytes.mkMulti None 0 1)
      = Returned r'
      /\ Bytes.getPosition (Bytes.one_byte_blocks (Z.to_nat (2 ^ 32))) r' = -1
      /\ Bytes.getPosition (Bytes.one_byte_blocks (Z.to_nat (2 ^ 32))) r'
         <> 2 ^ 32 - 1.
Proof.
  assert (Hcount : Z.of_nat (Z.to_nat (2 ^ 32)) = 2 ^ 32)
    by (apply Z2Nat.id; apply Z.pow_nonneg; lia).
  destruct (setPosition_last_of_2_32 (Z.to_nat (2 ^ 32))
                                     (Bytes.mkMulti None 0 1) Hcount)
    as [Hok [Hreader [Hwritten [Hset Hget]]]].
  split; [exact Hok |].
  split; [eexists; exact Hreader |].
  split; [rewrite Hwritten; lia |].
  eexists. split; [exact Hset |].
  rewrite Hget. split; [reflexivity | lia].
Qed.

(** The single-block reader on the store holding [1 2 3 4]: reading two
    bytes leaves the buffer [0 0] and overwrites the stored [1 2]. *)
Lemma ReadBytes_copies_into_the_store_witness :
  Bytes.forwardReader Bytes.four_bytes = Bytes.Single (Bytes.mkForward 0)
  /\ exists res,
    Bytes.ReadBytes Bytes.four_bytes (Bytes.mkForward 0) [x00; x00]
    = Returned res
    /\ Bytes.n res = len [x00; x00]
    /\ Bytes.err res = None
    /\ Bytes.pos (Bytes.reader_after res)
       = wrap_int32 (Bytes.pos (Bytes.mkForward 0) + wrap_int32 (len [x00; x00]))
    /\ Bytes.buf_after res = [x00; x00]
    /\ Bytes.blocks (Bytes.store_after res)
       = [firstn (Z.to_nat (Bytes.pos (Bytes.mkForward 0))) [x01; x02; x03; x04]
            ++ firstn (length [x01; x02; x03; x04]
                       - Z.to_nat (Bytes.pos (Bytes.mkForward 0))) [x00; x00]
            ++ skipn (Z.to_nat (Bytes.pos (Bytes.mkForward 0))
                      + length [x00; x00]) [x01; x02; x03; x04]].
Proof.
  apply (ReadBytes_copies_into_the_store
           Bytes.four_bytes (Bytes.mkForward 0) [x00; x00] [x01; x02; x03; x04]).
  - reflexivity.
  - cbn. lia.
Defined.

Lemma ReadBytes_four_bytes :
  Bytes.forwardReader Bytes.four_bytes = Bytes.Single (Bytes.mkForward 0)
  /\ Bytes.stored_bytes Bytes.four_bytes 0 2 = [x01; x02]
  /\ Bytes.ReadBytes Bytes.four_bytes (Bytes.mkForward 0) [x00; x00]
     = Returned
         (Bytes.mkRead 2 None [x00; x00]
            (Bytes.mkStore [[x00; x00; x03; x04]] 4 2 3 (Some 0%nat) 4)
            (Bytes.mkForward 2)).
Proof. repeat split. Qed.

(** The multi-block reader copies the other way round: on the six-byte
    store, positioned at 2, reading three bytes fills the buffer with the
    stored [3 4 5], across the block boundary. *)
Lemma ReadBytes_multi_six_bytes :
  exists r,
    Bytes.setPosition Bytes.six_bytes 2 (Bytes.mkMulti None 0 4) = Returned r
    /\ Bytes.ReadBytes_multi 3 Bytes.six_bytes r [x00; x00; x00]
       = Returned (3, None, [x03; x04; x05], Bytes.mkMulti (Some 1%nat) 2 1).
Proof. eexists. split; reflexivity. Qed.

(** * Further properties of the code *)

(** ** Lock polling with a time-out *)

Section LockTimeOut.

Import Lock.

Variable Self : Type.
Variable Obtain : LockImpl Self -> (bool * option error) * LockImpl Self.

Local Abbreviation call_Obtain := (Lock.call_Obtain Obtain).
Local Abbreviation ObtainWithin_for := (Lock.ObtainWithin_for Obtain).
Local Abbreviation ObtainWithin := (Lock.ObtainWithin Obtain).

Lemma quot_interval (t : Z) :
  0 <= t ->
  Z.quot t LOCK_POOL_INTERVAL = t / 1000
  /\ 0 <= t / 1000
  /\ 1000 * (t / 1000) <= t.
Proof.
  intros Ht. unfold LOCK_POOL_INTERVAL.
  rewrite Z.quot_div_nonneg by lia.
  split; [reflexivity |]. split.
  - apply Z.div_pos; lia.
  - apply Z.mul_div_le. lia.
Qed.

Lemma attempts_polls (rest : list (bool * option error)) :
  attempts (polls rest) = length rest.
Proof.
  induction rest as [| r rest IH]; [reflexivity |].
  rewrite (polls_cons r rest). cbn [attempts length]. now rewrite IH.
Qed.

Lemma slept_polls (rest : list (bool * option error)) :
  slept (polls rest) = LOCK_POOL_INTERVAL * Z.of_nat (length rest).
Proof.
  induction rest as [| r rest IH]; [reflexivity |].
  rewrite (polls_cons r rest). cbn [slept length]. rewrite IH.
  unfold LOCK_POOL_INTERVAL. lia.
Qed.

(** The loop under a real time-out: every turn sleeps one interval and
    then makes one attempt, and the sleep counter never passes
    [maxSleepCount]. *)
Lemma for_sleeps (fuel : nat) :
  forall (t m sc : Z) (locked : bool) (err : option error) (w : world Self),
    t <> LOCK_OBTAIN_WAIT_FOREVER ->
    0 <= sc <= m ->
    m < 2 ^ 63 ->
    exists rest : list (bool * option error),
      log (snd (ObtainWithin_for fuel t m sc locked err w))
      = log w ++ polls rest
      /\ sc + Z.of_nat (length rest) <= m.
Proof.
  induction fuel as [| fuel IH]; intros t m sc locked err w Ht Hsc Hm.
  - exists []. rewrite app_nil_r.
    destruct locked.
    + rewrite for_locked. cbn [snd length]. split; [reflexivity | lia].
    + destruct (Z.lt_ge_cases sc m) as [Hlt | Hge].
      * rewrite for_out_of_fuel by now right.
        cbn [snd length]. split; [reflexivity | lia].
      * rewrite for_time_out by assumption.
        cbn [snd length]. split; [reflexivity | lia].
  - destruct locked.
    + exists []. rewrite app_nil_r, for_locked.
      cbn [snd length]. split; [reflexivity | lia].
    + destruct (Z.lt_ge_cases sc m) as [Hlt | Hge].
      * rewrite for_poll by now right.
        pose proof (call_Obtain_log Self Obtain (Sleep LOCK_POOL_INTERVAL w))
          as Hlog.
        destruct (call_Obtain (Sleep LOCK_POOL_INTERVAL w)) as [[l e] w2].
        cbn [fst snd Sleep log] in *.
        rewrite wrap_int64_id by (unfold in_int64; lia).
        destruct (IH t m (sc + 1) l e w2 Ht ltac:(lia) Hm)
          as [rest [Hrest Hk]].
        exists ((l, e) :: rest).
        rewrite Hrest, Hlog, <- !app_assoc.
        split; [reflexivity |]. cbn [length]. lia.
      * exists []. rewrite app_nil_r, for_time_out by assumption.
        cbn [snd length]. split; [reflexivity | lia].
Qed.

(** X1.  With a non-negative time-out, whatever the lock does and however
    the call ends, what [ObtainWithin] does is one [Obtain] attempt
    followed by turns of exactly one sleep of the 1000 ms poll interval
    and one further attempt each, in this order and with nothing else in
    between: between two consecutive attempts it sleeps once, 1000 ms.
    The number of these sleeps is the number of attempts less one, and the
    time slept in total, 1000 ms a sleep, never exceeds the time-out. *)
Theorem ObtainWithin_sleeps_within_timeout
        (w : world Self) (fuel : nat) (t : Z) :
  0 <= t < 2 ^ 63 ->
  exists (first : bool * option error) (rest : list (bool * option error)),
    let evs := EvObtain (fst first) (snd first) :: polls rest in
    log (snd (ObtainWithin fuel t w)) = log w ++ evs
    /\ attempts evs = S (length rest)
    /\ slept evs = LOCK_POOL_INTERVAL * Z.of_nat (length rest)
    /\ slept evs <= t.
Proof.
  intros Ht.
  destruct (quot_interval t ltac:(lia)) as [Hquot [Hpos Hle]].
  rewrite ObtainWithin_unfold. cbv zeta.
  set (w0 := mkWorld (mkLock (self (lock w)) None) (log w)).
  pose proof (call_Obtain_log Self Obtain w0) as Hlog.
  destruct (call_Obtain w0) as [[l0 e0] w1].
  cbn [fst snd] in *. subst w0. cbn [log] in Hlog.
  destruct e0 as [e |].
  - exists (l0, Some e), []. cbn [snd fst polls flat_map].
    split; [exact Hlog |]. cbn. unfold LOCK_POOL_INTERVAL. lia.
  - destruct (Z.leb_spec 0 t) as [_ | Hneg]; [| lia]. cbn [orb].
    destruct (for_sleeps fuel t (Z.quot t LOCK_POOL_INTERVAL) 0 l0 None w1)
      as [rest [Hrest Hk]].
    + unfold LOCK_OBTAIN_WAIT_FOREVER. lia.
    + lia.
    + lia.
    + exists (l0, None), rest. cbn [fst snd].
      split; [rewrite Hrest, Hlog, <- app_assoc; reflexivity |].
      cbn [attempts slept]. rewrite attempts_polls, slept_polls.
      unfold LOCK_POOL_INTERVAL in *. lia.
Qed.

(** On a lock that no attempt obtains, the loop runs until the sleep
    counter reaches [maxSleepCount] and then times out. *)
Lemma for_never_obtained (n : nat) :
  (forall l, fst (fst (Obtain l)) = false) ->
  forall (fuel : nat) (t m sc : Z) (err : option error) (w : world Self),
    t <> LOCK_OBTAIN_WAIT_FOREVER ->
    0 <= sc ->
    m < 2 ^ 63 ->
    sc + Z.of_nat n = m ->
    (n <= fuel)%nat ->
    exists w',
      ObtainWithin_for fuel t m sc false err w
      = (Returned (false, Some (LockObtainTimeOut (failureReason (lock w')))), w')
      /\ attempts (log w') = (attempts (log w) + n)%nat
      /\ slept (log w') = slept (log w) + LOCK_POOL_INTERVAL * Z.of_nat n.
Proof.
  intros Hnever.
  induction n as [| n IH]; intros fuel t m sc err w Ht Hsc Hm Hn Hfuel.
  - exists w. rewrite for_time_out by (assumption || lia).
    unfold LOCK_POOL_INTERVAL. repeat split; lia.
  - destruct fuel as [| fuel]; [lia |].
    rewrite for_poll by (right; lia).
    pose proof (call_Obtain_log Self Obtain (Sleep LOCK_POOL_INTERVAL w))
      as Hlog.
    pose proof (call_Obtain_result Self Obtain (Sleep LOCK_POOL_INTERVAL w))
      as Hres.
    pose proof (Hnever (lock (Sleep LOCK_POOL_INTERVAL w))) as Hfalse.
    destruct (call_Obtain (Sleep LOCK_POOL_INTERVAL w)) as [[l e] w2].
    cbn [fst snd Sleep log lock] in *.
    rewrite <- Hres in Hfalse. cbn [fst] in Hfalse. subst l.
    rewrite wrap_int64_id by (unfold in_int64; lia).
    destruct (IH fuel t m (sc + 1) e w2 Ht ltac:(lia) Hm ltac:(lia) ltac:(lia))
      as [w' [Hrun [Hatt Hslept]]].
    exists w'. split; [exact Hrun |].
    rewrite Hatt, Hslept, Hlog, !attempts_app, !slept_app.
    cbn [attempts slept]. unfold LOCK_POOL_INTERVAL. split; lia.
Qed.

(** X2.  On a lock that no attempt obtains and whose first attempt returns
    no error, [ObtainWithin(t)] with [t >= 0] makes [t/1000 + 1] attempts,
    sleeps [t/1000] poll intervals and returns the time-out error, whatever
    errors the later attempts returned. *)
Theorem ObtainWithin_never_obtained
        (w : world Self) (fuel : nat) (t : Z) :
  0 <= t < 2 ^ 63 ->
  (forall l, fst (fst (Obtain l)) = false) ->
  snd (fst (Obtain (mkLock (self (lock w)) None))) = None ->
  (Z.to_nat (t / 1000) <= fuel)%nat ->
  exists w',
    ObtainWithin fuel t w
    = (Returned (false, Some (LockObtainTimeOut (failureReason (lock w')))), w')
    /\ attempts (log w') = (attempts (log w) + Z.to_nat (t / 1000) + 1)%nat
    /\ slept (log w') = slept (log w) + LOCK_POOL_INTERVAL * (t / 1000).
Proof.
  intros Ht Hnever Hfirst Hfuel.
  destruct (quot_interval t ltac:(lia)) as [Hquot [Hpos Hle]].
  rewrite ObtainWithin_unfold. cbv zeta.
  set (w0 := mkWorld (mkLock (self (lock w)) None) (log w)).
  pose proof (call_Obtain_log Self Obtain w0) as Hlog.
  pose proof (call_Obtain_result Self Obtain w0) as Hres.
  pose proof (Hnever (lock w0)) as Hfalse.
  destruct (call_Obtain w0) as [[l0 e0] w1].
  subst w0. cbn [fst snd log lock] in *.
  rewrite <- Hres in Hfalse, Hfirst. cbn [fst snd] in Hfalse, Hfirst.
  subst l0 e0.
  destruct (Z.leb_spec 0 t) as [_ | Hneg]; [| lia]. cbn [orb].
  destruct (for_never_obtained (Z.to_nat (t / 1000)) Hnever fuel t
              (Z.quot t LOCK_POOL_INTERVAL) 0 None w1)
    as [w' [Hrun [Hatt Hslept]]]; try lia.
  - unfold LOCK_OBTAIN_WAIT_FOREVER. lia.
  - exists w'. split; [exact Hrun |].
    rewrite Hatt, Hslept, Hlog, attempts_app, slept_app.
    cbn [attempts slept]. rewrite Z2Nat.id by lia. split; lia.
Qed.

End LockTimeOut.

Lemma ObtainWithin_sleeps_within_timeout_witness :
  exists (first : bool * option error) (rest : list (bool * option error)),
    let evs := Lock.EvObtain (fst first) (snd first) :: Lock.polls rest in
    Lock.log (snd (Lock.ObtainWithin Lock.countdown_Obtain 5 2500
                     (Lock.mkWorld (Lock.mkLock 1%nat None) [])))
    = Lock.log (Lock.mkWorld (Lock.mkLock 1%nat None) []) ++ evs
    /\ Lock.attempts evs = S (length rest)
    /\ Lock.slept evs = Lock.LOCK_POOL_INTERVAL * Z.of_nat (length rest)
    /\ Lock.slept evs <= 2500.
Proof.
  apply (ObtainWithin_sleeps_within_timeout nat Lock.countdown_Obtain
           (Lock.mkWorld (Lock.mkLock 1%nat None) []) 5 2500).
  lia.
Defined.

Lemma ObtainWithin_never_obtained_witness :
  exists w',
    Lock.ObtainWithin Lock.grumbling_Obtain 4 4999
                      (Lock.mkWorld (Lock.mkLock false None) [])
    = (Returned (false, Some (Lock.LockObtainTimeOut
                                (Lock.failureReason (Lock.lock w')))), w')
    /\ Lock.attempts (Lock.log w')
       = (Lock.attempts (Lock.log (Lock.mkWorld (Lock.mkLock false None) []))
          + Z.to_nat (4999 / 1000) + 1)%nat
    /\ Lock.slept (Lock.log w')
       = Lock.slept (Lock.log (Lock.mkWorld (Lock.mkLock false None) []))
         + Lock.LOCK_POOL_INTERVAL * (4999 / 1000).
Proof.
  apply (ObtainWithin_never_obtained bool Lock.grumbling_Obtain
           (Lock.mkWorld (Lock.mkLock false None) []) 4 4999).
  - lia.
  - intros [[|] reason]; reflexivity.
  - reflexivity.
  - apply le_n.
Defined.

(** ** A lock that is released while the caller polls *)

Section Countdown.

Import Lock.

Lemma countdown_call (k : nat) (reason : option error) (events : list event) :
  Lock.call_Obtain countdown_Obtain (mkWorld (mkLock k reason) events)
  = match k with
    | O => ((true, None),
            mkWorld (mkLock 0%nat reason) (events ++ [EvObtain true None]))
    | S j => ((false, None),
              mkWorld (mkLock j reason) (events ++ [EvObtain false None]))
    end.
Proof. destruct k; reflexivity. Qed.

(** The loop on a lock that is released after [j] more failed attempts:
    it needs [j + 1] sleeps to obtain it. *)
Lemma for_countdown (fuel : nat) :
  forall (j : nat) (t m sc : Z) (err : option error) (w : world nat),
    t <> LOCK_OBTAIN_WAIT_FOREVER ->
    0 <= sc ->
    m < 2 ^ 63 ->
    self (lock w) = j ->
    failureReason (lock w) = None ->
    Z.min (Z.of_nat j + 1) (Z.max 0 (m - sc)) <= Z.of_nat fuel ->
    exists w',
      Lock.ObtainWithin_for countdown_Obtain fuel t m sc false err w
      = (Returned (Z.of_nat j + 1 <=? m - sc,
                   if Z.of_nat j + 1 <=? m - sc
                   then None else Some (LockObtainTimeOut None)), w')
      /\ Z.of_nat (attempts (log w'))
         = Z.of_nat (attempts (log w))
           + Z.min (Z.of_nat j + 1) (Z.max 0 (m - sc))
      /\ slept (log w')
         = slept (log w)
           + LOCK_POOL_INTERVAL * Z.min (Z.of_nat j + 1) (Z.max 0 (m - sc)).
Proof.
  induction fuel as [| fuel IH];
    intros j t m sc err w Ht Hsc Hm Hself Hreason Hfuel.
  - (* no turn left to observe: the time is up *)
    assert (Hup : m <= sc) by lia.
    exists w. rewrite for_time_out by assumption. rewrite Hreason.
    destruct (Z.leb_spec (Z.of_nat j + 1) (m - sc)); [lia |].
    unfold LOCK_POOL_INTERVAL. repeat split; lia.
  - destruct (Z.lt_ge_cases sc m) as [Hlt | Hge].
    + rewrite for_poll by now right.
      pose proof (call_Obtain_log nat countdown_Obtain
                    (Sleep LOCK_POOL_INTERVAL w)) as Hlog.
      pose proof (call_Obtain_result nat countdown_Obtain
                    (Sleep LOCK_POOL_INTERVAL w)) as Hres.
      destruct (Lock.call_Obtain countdown_Obtain (Sleep LOCK_POOL_INTERVAL w))
        as [[l e] w2] eqn:Hcall.
      cbn [fst snd Sleep log lock] in *.
      unfold Lock.call_Obtain in Hcall. cbn [Sleep lock log] in Hcall.
      unfold countdown_Obtain in Hcall, Hres. rewrite Hself in Hcall, Hres.
      rewrite wrap_int64_id by (unfold in_int64; lia).
      destruct j as [| j].
      * (* this attempt obtains the lock *)
        inversion Hres; subst l e. inversion Hcall; subst w2.
        rewrite for_locked. eexists. split.
        -- destruct (Z.leb_spec (Z.of_nat 0 + 1) (m - sc)); [reflexivity | lia].
        -- cbn [log]. rewrite !attempts_app, !slept_app.
           cbn [attempts slept]. unfold LOCK_POOL_INTERVAL. split; lia.
      * inversion Hres; subst l e. inversion Hcall; subst w2.
        destruct (IH j t m (sc + 1) None
                    (mkWorld (mkLock j (failureReason (lock w)))
                             ((log w ++ [EvSleep LOCK_POOL_INTERVAL])
                                ++ [EvObtain false None]))
                    Ht ltac:(lia) Hm eq_refl Hreason ltac:(cbn; lia))
          as [w' [Hrun [Hatt Hslept]]].
        exists w'. split.
        -- rewrite Hrun.
           destruct (Z.leb_spec (Z.of_nat j + 1) (m - (sc + 1)));
             destruct (Z.leb_spec (Z.of_nat (S j) + 1) (m - sc));
             (reflexivity || lia).
        -- rewrite Hatt, Hslept. cbn [log].
           rewrite !attempts_app, !slept_app. cbn [attempts slept].
           unfold LOCK_POOL_INTERVAL. split; lia.
    + exists w. rewrite for_time_out by assumption. rewrite Hreason.
      destruct (Z.leb_spec (Z.of_nat j + 1) (m - sc)); [lia |].
      unfold LOCK_POOL_INTERVAL. repeat split; lia.
Qed.

(** X3.  On a lock that is released after [k] failed attempts,
    [ObtainWithin(t)] with [t >= 0] obtains the lock exactly when
    [k <= t/1000], after [k] sleeps; otherwise it returns the time-out
    error after [t/1000] sleeps.  Either way it has slept
    [min(k, t/1000)] poll intervals and made one attempt more. *)
Theorem ObtainWithin_countdown
        (k fuel : nat) (t : Z) (reason : option error) (events : list event) :
  0 <= t < 2 ^ 63 ->
  Z.min (Z.of_nat k) (t / 1000) <= Z.of_nat fuel ->
  exists w',
    Lock.ObtainWithin countdown_Obtain fuel t (mkWorld (mkLock k reason) events)
    = (Returned (Z.of_nat k <=? t / 1000,
                 if Z.of_nat k <=? t / 1000
                 then None else Some (LockObtainTimeOut None)), w')
    /\ Z.of_nat (attempts (log w'))
       = Z.of_nat (attempts events) + Z.min (Z.of_nat k) (t / 1000) + 1
    /\ slept (log w')
       = slept events + LOCK_POOL_INTERVAL * Z.min (Z.of_nat k) (t / 1000).
Proof.
  intros Ht Hfuel.
  destruct (quot_interval t ltac:(lia)) as [Hquot [Hpos Hle]].
  rewrite ObtainWithin_unfold. cbv zeta. cbn [lock self log].
  rewrite countdown_call.
  destruct k as [| k]; cbn [fst snd].
  - (* the lock is free at the first attempt *)
    destruct (Z.leb_spec 0 t) as [_ | Hneg]; [| lia]. cbn [orb].
    rewrite for_locked. eexists. split.
    + destruct (Z.leb_spec (Z.of_nat 0) (t / 1000)); [reflexivity | lia].
    + cbn [log]. rewrite attempts_app, slept_app. cbn [attempts slept].
      unfold LOCK_POOL_INTERVAL. split; lia.
  - destruct (Z.leb_spec 0 t) as [_ | Hneg]; [| lia]. cbn [orb].
    rewrite Hquot.
    destruct (for_countdown fuel k t (t / 1000) 0 None
                (mkWorld (mkLock k None) (events ++ [EvObtain false None])))
      as [w' [Hrun [Hatt Hslept]]]; try reflexivity; try lia.
    + unfold LOCK_OBTAIN_WAIT_FOREVER. lia.
    + exists w'. rewrite Hrun. split.
      * destruct (Z.leb_spec (Z.of_nat k + 1) (t / 1000 - 0));
          destruct (Z.leb_spec (Z.of_nat (S k)) (t / 1000));
          (reflexivity || lia).
      * rewrite Hatt, Hslept. cbn [log].
        rewrite attempts_app, slept_app. cbn [attempts slept].
        unfold LOCK_POOL_INTERVAL. split; lia.
Qed.

End Countdown.

Lemma ObtainWithin_countdown_witness :
  exists w',
    Lock.ObtainWithin Lock.countdown_Obtain 3 3999
                      (Lock.mkWorld (Lock.mkLock 3%nat None) [])
    = (Returned (Z.of_nat 3 <=? 3999 / 1000,
                 if Z.of_nat 3 <=? 3999 / 1000
                 then None else Some (Lock.LockObtainTimeOut None)), w')
    /\ Z.of_nat (Lock.attempts (Lock.log w'))
       = Z.of_nat (Lock.attempts []) + Z.min (Z.of_nat 3) (3999 / 1000) + 1
    /\ Lock.slept (Lock.log w')
       = Lock.slept []
         + Lock.LOCK_POOL_INTERVAL * Z.min (Z.of_nat 3) (3999 / 1000).
Proof.
  apply (ObtainWithin_countdown 3 3 3999 None []).
  - lia.
  - cbn. lia.
Defined.

(** ** What a run of the serial scheduler does to the queue *)

Section MergeQueue.

Import Merge.

Variable mergeError : OneMerge -> option error.


End MergeQueue.

(** ** The lock directory of a file-system lock factory *)

Section LockDirectory.

Import Factory.

Lemma setLockDir_unset (dir : string) (f : FSLockFactory) :
  lockDir f = ""%string -> setLockDir dir f = Returned (mkFS (base f) dir).
Proof. intros Hunset. unfold setLockDir. now rewrite Hunset. Qed.

Lemma setLockDir_set (dir : string) (f : FSLockFactory) :
  lockDir f <> ""%string ->
  setLockDir dir f
  = Panicked "You can set the lock directory for this factory only once.".
Proof.
  intros Hset. unfold setLockDir.
  destruct (String.eqb_spec (lockDir f) ""); [contradiction | reflexivity].
Qed.

Lemma setLockDirs_from_unset (dirs : list string) :
  forall f : FSLockFactory,
    lockDir f = ""%string ->
    match setLockDirs dirs f with
    | Returned f' =>
        Forall (fun dir => dir = ""%string) (removelast dirs)
        /\ getLockDir f' = last dirs ""%string
        /\ base f' = base f
    | Panicked _ => ~ Forall (fun dir => dir = ""%string) (removelast dirs)
    | Running => False
    end.
Proof.
  induction dirs as [| dir rest IH]; intros f Hunset.
  - cbn. repeat split; [constructor | exact Hunset].
  - cbn [setLockDirs]. rewrite setLockDir_unset by assumption.
    destruct rest as [| next rest].
    + cbn. repeat split. constructor.
    + destruct (String.eqb_spec dir "") as [-> | Hdir].
      * specialize (IH (mkFS (base f) "") eq_refl).
        change (removelast ("" :: next :: rest)%string)
          with (""%string :: removelast (next :: rest)).
        change (last ("" :: next :: rest)%string ""%string)
          with (last (next :: rest) ""%string).
        destruct (setLockDirs (next :: rest) (mkFS (base f) ""))
          as [f' | msg |].
        -- destruct IH as [Hall [Hlast Hbase]].
           repeat split; [now constructor | exact Hlast | exact Hbase].
        -- intros Hall. inversion Hall; subst. contradiction.
        -- exact IH.
      * cbn [setLockDirs].
        rewrite setLockDir_set by (cbn; exact Hdir).
        intros Hall. inversion Hall; subst. contradiction.
Qed.

(** X5.  A new [FSLockFactory] accepts a sequence of [setLockDir] calls
    exactly when every call but the last sets the empty directory: the
    lock directory is then the last one set and the lock prefix is
    untouched.  Any call after a non-empty directory has been set
    panics. *)
Theorem setLockDir_only_once (dirs : list string) :
  match setLockDirs dirs newFSLockFactory with
  | Returned f =>
      Forall (fun dir => dir = ""%string) (removelast dirs)
      /\ getLockDir f = last dirs ""%string
      /\ LockPrefix (base f) = ""%string
  | Panicked msg =>
      ~ Forall (fun dir => dir = ""%string) (removelast dirs)
      /\ msg = "You can set the lock directory for this factory only once."%string
  | Running => False
  end.
Proof.
  pose proof (setLockDirs_from_unset dirs newFSLockFactory eq_refl) as H.
  destruct (setLockDirs dirs newFSLockFactory) as [f | msg |] eqn:Hrun.
  - destruct H as [Hall [Hlast Hbase]].
    repeat split; [exact Hall | exact Hlast | now rewrite Hbase].
  - split; [exact H |].
    clear H. revert Hrun. generalize newFSLockFactory.
    induction dirs as [| dir rest IH]; intros f; cbn [setLockDirs].
    + discriminate.
    + unfold setLockDir.
      destruct (String.eqb (lockDir f) ""); [apply IH |].
      intros Hp. now inversion Hp.
  - exact H.
Qed.

End LockDirectory.

(** ** Writing to the block byte store *)

Section StoreWriter.

Import Bytes.

Lemma store_app_left {A : Type} (a c : list A) (k : nat) (v : A) :
  (k < length a)%nat -> store (a ++ c) k v = store a k v ++ c.
Proof.
  revert k; induction a as [| x a IH]; intros k Hk; [simpl in Hk; lia |].
  destruct k as [| k]; simpl; [reflexivity |].
  rewrite IH by (simpl in Hk; lia). reflexivity.
Qed.

Lemma store_app_right {A : Type} (a c : list A) (k : nat) (v : A) :
  store (a ++ c) (length a + k) v = a ++ store c k v.
Proof.
  induction a as [| x a IH]; simpl; [reflexivity | now rewrite IH].
Qed.

Lemma store_repeat_zero (count : nat) (b : byte) :
  store (repeat x00 (S count)) 0 b = b :: repeat x00 count.
Proof. reflexivity. Qed.

Lemma concat_length_blocks (blks : list (list byte)) (size : Z) :
  Forall (fun block => len block = size) blks ->
  len (concat blks) = len blks * size.
Proof.
  induction 1 as [| block blks Hblock _ IH]; [reflexivity |].
  cbn [concat]. rewrite len_app, len_cons, IH, Hblock. lia.
Qed.

Lemma last_block (blks : list (list byte)) :
  blks <> [] ->
  exists init block,
    blks = init ++ [block] /\ Nat.pred (length blks) = length init.
Proof.
  intros Hne. destruct (exists_last Hne) as [init [block ->]].
  exists init, block. split; [reflexivity |].
  rewrite length_app. simpl. lia.
Qed.

Lemma store_ok_new_block (bs : BytesStore) :
  store_ok bs -> 1 <= blockSize bs ->
  open_ok (new_block bs) /\ nextWrite (new_block bs) = 0.
Proof.
  intros [Hbits Hsize Hmask Hnext Hblocks] Hone.
  split; [| reflexivity].
  constructor; cbn [new_block blocks blockSize current].
  - constructor; cbn [new_block blocks blockSize blockBits blockMask nextWrite];
      try assumption; try lia.
    apply Forall_app. split; [assumption |].
    constructor; [| constructor].
    unfold len, make. rewrite repeat_length. lia.
  - exact Hone.
  - intros Hnil. apply app_eq_nil in Hnil. destruct Hnil as [_ Hnil].
    discriminate.
  - rewrite length_app. simpl. f_equal. lia.
Qed.

(** [WriteByte] on a full last block first appends a block. *)
Lemma WriteByte_full (b : byte) (bs : BytesStore) :
  nextWrite bs = blockSize bs -> 1 <= blockSize bs ->
  WriteByte b bs = WriteByte b (new_block bs).
Proof.
  intros Hfull Hone. unfold WriteByte.
  rewrite Hfull, Z.eqb_refl.
  cbn [new_block nextWrite blockSize].
  destruct (Z.eqb_spec 0 (blockSize bs)) as [Hzero | _]; [lia |].
  reflexivity.
Qed.

(** [WriteByte] where the last block has room: the byte lands at
    [nextWrite], at position [len data] of the flattened store. *)
Lemma WriteByte_open (b : byte) (bs : BytesStore) (data : list byte) :
  open_ok bs ->
  nextWrite bs < blockSize bs ->
  flat bs = data ++ repeat x00 (Z.to_nat (blockSize bs - nextWrite bs)) ->
  exists bs',
    WriteByte b bs = Returned (None, bs')
    /\ writer_ok bs'
    /\ blockBits bs' = blockBits bs
    /\ flat bs'
       = (data ++ [b]) ++ repeat x00 (Z.to_nat (blockSize bs' - nextWrite bs')).
Proof.
  intros [[Hbits Hsize Hmask Hnext Hblocks] Hone Hne Hcur] Hroom Hflat.
  destruct (last_block (blocks bs) Hne) as [init [block [Hsplit Hlast]]].
  assert (Hblock : len block = blockSize bs).
  { rewrite Hsplit in Hblocks. apply Forall_app in Hblocks.
    destruct Hblocks as [_ Hb]. now inversion Hb. }
  assert (Hinit : Forall (fun blk => len blk = blockSize bs) init).
  { rewrite Hsplit in Hblocks. now apply Forall_app in Hblocks. }
  pose proof (wrap_uint32_nonneg (Z.shiftl 1 (blockBits bs))) as Hrange.
  rewrite <- Hsize in Hrange.
  unfold WriteByte.
  destruct (Z.eqb_spec (nextWrite bs) (blockSize bs)) as [Heq | _]; [lia |].
  rewrite Hcur, Hlast, Hsplit, nth_error_app2, Nat.sub_diag by lia.
  cbn [nth_error].
  destruct (index_in_range block (nextWrite bs) ltac:(lia)) as [old ->].
  eexists. split; [reflexivity |].
  rewrite wrap_uint32_id by lia.
  rewrite store_app_here.
  assert (Hstore : len (store block (Z.to_nat (nextWrite bs)) b) = blockSize bs).
  { unfold len in *. now rewrite store_length. }
  split; [| split; [reflexivity |]].
  - constructor; cbn [blocks blockSize blockBits blockMask nextWrite current].
    + constructor; cbn [blocks blockSize blockBits blockMask nextWrite];
        try assumption; try lia.
      apply Forall_app. split; [assumption |]. now repeat constructor.
    + exact Hone.
    + destruct (init ++ [store block (Z.to_nat (nextWrite bs)) b]) eqn:Hnew.
      * apply app_eq_nil in Hnew. destruct Hnew as [_ Hnew]. discriminate.
      * rewrite <- Hnew, length_app. cbn [length].
        split; [f_equal; lia | lia].
  - (* the flattened store *)
    unfold flat in *. cbn [blocks blockSize nextWrite].
    rewrite Hsplit in Hflat.
    rewrite concat_app in *. cbn [concat] in *. rewrite app_nil_r in *.
    assert (Hlen : len data = len (concat init) + nextWrite bs).
    { apply (f_equal (@len byte)) in Hflat.
      rewrite !len_app in Hflat. unfold len at 4 in Hflat.
      rewrite repeat_length in Hflat. lia. }
    assert (Hdata : (length data = length (concat init) + Z.to_nat (nextWrite bs))%nat)
      by (unfold len in Hlen; lia).
    rewrite <- (store_app_right (concat init) block (Z.to_nat (nextWrite bs)) b).
    rewrite Hflat, <- Hdata.
    replace (Z.to_nat (blockSize bs - nextWrite bs))
      with (S (Z.to_nat (blockSize bs - (nextWrite bs + 1)))) by lia.
    cbn [repeat]. rewrite store_app_here.
    now rewrite <- app_assoc.
Qed.

(** One [WriteByte] on a store the writer has built. *)
Lemma WriteByte_writer (b : byte) (bs : BytesStore) (data : list byte) :
  writer_ok bs ->
  flat bs = data ++ repeat x00 (Z.to_nat (blockSize bs - nextWrite bs)) ->
  exists bs',
    WriteByte b bs = Returned (None, bs')
    /\ writer_ok bs'
    /\ blockBits bs' = blockBits bs
    /\ flat bs'
       = (data ++ [b]) ++ repeat x00 (Z.to_nat (blockSize bs' - nextWrite bs')).
Proof.
  intros [Hok Hone Hcur] Hflat.
  destruct (Z.eq_dec (nextWrite bs) (blockSize bs)) as [Hfull | Hroom].
  - rewrite WriteByte_full by assumption.
    destruct (store_ok_new_block bs Hok Hone) as [Hopen Hzero].
    destruct (WriteByte_open b (new_block bs) data Hopen) as [bs' H].
    + rewrite Hzero. cbn [new_block blockSize]. lia.
    + unfold flat in *. cbn [new_block blocks blockSize nextWrite].
      rewrite concat_app, Hflat, Hfull, Z.sub_diag. cbn [concat Z.to_nat repeat].
      rewrite !app_nil_r. unfold make. f_equal. f_equal. lia.
    + exists bs'. exact H.
  - destruct (blocks bs) as [| blk rest] eqn:Hblocks.
    + destruct Hcur as [_ Hfull]. contradiction.
    + destruct Hcur as [Hcur Hpos].
      apply (WriteByte_open b bs data).
      * constructor; try assumption.
        -- rewrite Hblocks. discriminate.
        -- now rewrite Hblocks.
      * destruct Hok as [_ _ _ Hnext _]. lia.
      * exact Hflat.
Qed.

Lemma newBytesStore_writer (bits : Z) :
  0 <= bits < 32 ->
  writer_ok (newBytesStore bits)
  /\ flat (newBytesStore bits)
     = [] ++ repeat x00 (Z.to_nat (blockSize (newBytesStore bits)
                                   - nextWrite (newBytesStore bits))).
Proof.
  intros Hbits.
  assert (Hok : store_ok (newBytesStore bits)) by (apply newBytesStore_ok; lia).
  destruct (blockSize_pow2 (newBytesStore bits) Hok) as [Hsize [_ Hpow]];
    [cbn; lia |].
  split.
  - constructor; [exact Hok | rewrite Hsize; cbn [newBytesStore blockBits]; lia |].
    cbn. split; reflexivity.
  - cbn [newBytesStore blockSize nextWrite]. rewrite Z.sub_diag. reflexivity.
Qed.

(** Any number of [WriteByte] calls on a store the writer has built. *)
Lemma WriteAll_writer (more : list byte) :
  forall (bs : BytesStore) (data : list byte),
    writer_ok bs ->
    flat bs = data ++ repeat x00 (Z.to_nat (blockSize bs - nextWrite bs)) ->
    exists bs',
      WriteAll more bs = Returned bs'
      /\ writer_ok bs'
      /\ blockBits bs' = blockBits bs
      /\ flat bs'
         = (data ++ more)
             ++ repeat x00 (Z.to_nat (blockSize bs' - nextWrite bs')).
Proof.
  induction more as [| b more IH]; intros bs data Hok Hflat.
  - exists bs. rewrite app_nil_r.
    split; [reflexivity | split; [exact Hok | split; [reflexivity | exact Hflat]]].
  - destruct (WriteByte_writer b bs data Hok Hflat)
      as [bs1 [Hwrite [Hok1 [Hbits1 Hflat1]]]].
    destruct (IH bs1 (data ++ [b]) Hok1 Hflat1)
      as [bs' [Hall [Hok' [Hbits' Hflat']]]].
    exists bs'. cbn [WriteAll]. rewrite Hwrite.
    split; [exact Hall |]. split; [exact Hok' |]. split; [congruence |].
    rewrite Hflat'. f_equal. now rewrite <- app_assoc.
Qed.

Lemma written_of_flat (bs : BytesStore) (data : list byte) :
  writer_ok bs ->
  flat bs = data ++ repeat x00 (Z.to_nat (blockSize bs - nextWrite bs)) ->
  written bs = len data.
Proof.
  intros [[Hbits Hsize Hmask Hnext Hblocks] Hone Hcur] Hflat.
  apply (f_equal (@len byte)) in Hflat.
  unfold flat in Hflat.
  rewrite (concat_length_blocks _ _ Hblocks), len_app in Hflat.
  unfold len at 3 in Hflat. rewrite repeat_length in Hflat.
  unfold written. destruct (blocks bs) as [| blk rest] eqn:Hb.
  - destruct Hcur as [_ Hfull]. unfold len in *. simpl in Hflat. lia.
  - lia.
Qed.

(** X6.  Writing any bytes one at a time into a new store with
    [blockBits < 32] never panics.  The store then holds exactly these
    bytes, in order, at the front of its blocks, the rest of the last
    block being zero; its blocks all have [blockSize] bytes and the number
    of bytes written is the number given. *)
Theorem WriteByte_stores_the_bytes (bits : Z) (data : list byte) :
  0 <= bits < 32 ->
  exists bs,
    WriteAll data (newBytesStore bits) = Returned bs
    /\ store_ok bs
    /\ written bs = len data
    /\ firstn (length data) (flat bs) = data
    /\ skipn (length data) (flat bs)
       = repeat x00 (Z.to_nat (blockSize bs - nextWrite bs)).
Proof.
  intros Hbits.
  destruct (newBytesStore_writer bits Hbits) as [Hok Hflat].
  destruct (WriteAll_writer data (newBytesStore bits) [] Hok Hflat)
    as [bs [Hall [Hok' [_ Hflat']]]].
  cbn [app] in Hflat'.
  exists bs. split; [exact Hall |].
  split; [now destruct Hok' |].
  split; [now apply written_of_flat |].
  rewrite Hflat'. split.
  - rewrite firstn_app, Nat.sub_diag, firstn_all. cbn [firstn].
    now rewrite app_nil_r.
  - rewrite skipn_app, Nat.sub_diag, skipn_all. reflexivity.
Qed.

End StoreWriter.

Lemma WriteByte_stores_the_bytes_witness :
  exists bs,
    Bytes.WriteAll [x0a; x0b; x0c; x0d; x0e] (Bytes.newBytesStore 1)
    = Returned bs
    /\ Bytes.store_ok bs
    /\ Bytes.written bs = len [x0a; x0b; x0c; x0d; x0e]
    /\ firstn (length [x0a; x0b; x0c; x0d; x0e]) (Bytes.flat bs)
       = [x0a; x0b; x0c; x0d; x0e]
    /\ skipn (length [x0a; x0b; x0c; x0d; x0e]) (Bytes.flat bs)
       = repeat x00 (Z.to_nat (Bytes.blockSize bs - Bytes.nextWrite bs)).
Proof.
  apply (WriteByte_stores_the_bytes 1 [x0a; x0b; x0c; x0d; x0e]). lia.
Defined.

(** ** A store whose block size is zero *)

Section ZeroBlockSize.

Import Bytes.




End ZeroBlockSize.


(** ** [WriteBytes] against [WriteByte] *)

Section WriteBytesFacts.

Import Bytes.

Variables (size bits mask : Z).
Hypothesis size_range : 1 <= size < 2 ^ 32.

(** A store whose last block is [block], the one [current] shares. *)
Local Abbreviation st init block next :=
  (mkStore (init ++ [block]) size bits mask (Some (length init)) next).

Lemma copy_at_nothing (block : list byte) (k : nat) : copy_at block k [] = block.
Proof.
  unfold copy_at.
  replace (copy (skipn k block) []) with (skipn k block)
    by (now destruct (skipn k block)).
  apply firstn_skipn.
Qed.

Lemma copy_at_cons (block : list byte) :
  forall (k : nat) (b : byte) (src : list byte),
    (k < length block)%nat ->
    copy_at (store block k b) (S k) src = copy_at block k (b :: src).
Proof.
  unfold copy_at.
  induction block as [| x block IH]; intros k b src Hk; [simpl in Hk; lia |].
  destruct k as [| k].
  - reflexivity.
  - cbn [store firstn skipn app]. f_equal.
    apply (IH k b src). simpl in Hk. lia.
Qed.

Lemma copy_at_length (block src : list byte) (k : nat) :
  (k <= length block)%nat -> length (copy_at block k src) = length block.
Proof.
  intros Hk. unfold copy_at.
  rewrite length_app, copy_length, length_firstn, length_skipn. lia.
Qed.

Lemma WriteByte_st (b : byte) (init : list (list byte)) (block : list byte)
      (next : Z) :
  len block = size -> 0 <= next < size ->
  WriteByte b (st init block next)
  = Returned (None, st init (store block (Z.to_nat next) b) (next + 1)).
Proof.
  intros Hblock Hnext. unfold WriteByte.
  cbn [nextWrite blockSize].
  destruct (Z.eqb_spec next size) as [Heq | _]; [lia |].
  cbn [current blocks nextWrite blockSize blockBits blockMask].
  rewrite nth_error_app2, Nat.sub_diag by lia. cbn [nth_error].
  destruct (index_in_range block next ltac:(lia)) as [old ->].
  rewrite store_app_here, wrap_uint32_id by lia.
  reflexivity.
Qed.

(** Bytes that fit into the last block: written one by one they give what
    one [copy] gives. *)
Lemma WriteAll_fits (src : list byte) :
  forall (init : list (list byte)) (block : list byte) (next : Z),
    len block = size -> 0 <= next -> next + len src <= size ->
    WriteAll src (st init block next)
    = Returned (st init (copy_at block (Z.to_nat next) src) (next + len src)).
Proof.
  induction src as [| b src IH]; intros init block next Hblock Hnext Hfit.
  - cbn [WriteAll]. rewrite copy_at_nothing.
    change (len (@nil byte)) with 0. now rewrite Z.add_0_r.
  - rewrite len_cons in Hfit. pose proof (len_nonneg src) as Hsrc.
    cbn [WriteAll]. rewrite WriteByte_st by lia.
    rewrite IH.
    + replace (Z.to_nat (next + 1)) with (S (Z.to_nat next)) by lia.
      rewrite copy_at_cons by (unfold len in Hblock; lia).
      rewrite len_cons. do 2 f_equal. lia.
    + unfold len in *. rewrite store_length. exact Hblock.
    + lia.
    + lia.
Qed.

Lemma copy_to_current_st (init : list (list byte)) (block src : list byte)
      (next : Z) :
  len block = size -> 0 <= next <= size ->
  copy_to_current (st init block next) src
  = Returned (st init (copy_at block (Z.to_nat next) src) next).
Proof.
  intros Hblock Hnext. unfold copy_to_current, write_block.
  cbn [current blocks nextWrite blockSize blockBits blockMask].
  rewrite app_nth2, Nat.sub_diag by lia. cbn [nth].
  destruct (Z.ltb_spec next 0); [lia |].
  destruct (Z.ltb_spec (len block) next); [lia |].
  cbn [orb]. now rewrite store_app_here.
Qed.

Lemma WriteAll_app (a c : list byte) (bs : BytesStore) :
  WriteAll (a ++ c) bs
  = match WriteAll a bs with
    | Returned bs' => WriteAll c bs'
    | Panicked msg => Panicked msg
    | Running => Running
    end.
Proof.
  revert bs; induction a as [| b a IH]; intros bs; cbn [app WriteAll];
    [reflexivity |].
  destruct (WriteByte b bs) as [[e bs'] | msg |]; [apply IH | |]; reflexivity.
Qed.

Lemma slice_in_range (buf : list byte) (lo hi : Z) :
  0 <= lo <= hi -> hi <= len buf ->
  slice buf lo hi
  = Some (firstn (Z.to_nat (hi - lo)) (skipn (Z.to_nat lo) buf)).
Proof.
  intros Hlo Hhi. unfold slice.
  destruct (Z.leb_spec 0 lo); [| lia].
  destruct (Z.leb_spec lo hi); [| lia].
  destruct (Z.leb_spec hi (len buf)); [| lia].
  reflexivity.
Qed.

Lemma firstn_split (buf : list byte) (a c : nat) :
  firstn (a + c) buf = firstn a buf ++ firstn c (skipn a buf).
Proof.
  revert a; induction buf as [| x buf IH]; intros [| a]; cbn;
    try reflexivity.
  - now rewrite firstn_nil.
  - now rewrite IH.
Qed.

Lemma len_firstn_skipn (buf : list byte) (lo count : Z) :
  0 <= lo -> 0 <= count -> lo + count <= len buf ->
  len (firstn (Z.to_nat count) (skipn (Z.to_nat lo) buf)) = count.
Proof.
  intros Hlo Hcount Hfit. unfold len in *.
  rewrite length_firstn, length_skipn. lia.
Qed.

(** The loop of [WriteBytes], from a store whose last block is shared by
    [current], writes what [WriteByte] would, byte by byte. *)
Lemma WriteBytes_for_st (fuel : nat) :
  forall (offset length : Z) (buf : list byte) (init : list (list byte))
         (block : list byte) (next : Z),
    len block = size ->
    0 <= next <= size ->
    0 <= offset -> 0 <= length -> offset + length <= len buf ->
    len buf < 2 ^ 32 ->
    length + (if next =? size then 1 else 0) <= Z.of_nat fuel ->
    exists bs',
      WriteAll (firstn (Z.to_nat length) (skipn (Z.to_nat offset) buf))
               (st init block next) = Returned bs'
      /\ WriteBytes_for fuel offset length buf (st init block next)
         = Returned (None, bs').
Proof.
  induction fuel as [| fuel IH];
    intros offset length buf init block next Hblock Hnext Hoff Hlen Hfit
           Hbuf Hfuel.
  - assert (length = 0) by (destruct (next =? size); lia). subst length.
    eexists. split; reflexivity.
  - cbn [WriteBytes_for].
    destruct (Z.ltb_spec 0 length) as [Hpos | Hzero].
    + cbn [blockSize nextWrite].
      rewrite (wrap_uint32_id (size - next)) by lia.
      destruct (Z.leb_spec length (size - next)) as [Hin | Hout].
      * (* the rest of the buffer fits into the last block *)
        rewrite (wrap_uint32_id (offset + length)) by lia.
        rewrite slice_in_range by lia.
        replace (offset + length - offset) with length by lia.
        rewrite copy_to_current_st by lia.
        assert (Hsrc : len (firstn (Z.to_nat length)
                                   (skipn (Z.to_nat offset) buf)) = length)
          by (apply len_firstn_skipn; lia).
        rewrite WriteAll_fits by lia.
        rewrite Hsrc. eexists. split; [reflexivity |].
        unfold set_nextWrite.
        cbn [blocks blockSize blockBits blockMask current nextWrite].
        now rewrite wrap_uint32_id by lia.
      * (* fill the last block, append a block, go on *)
        set (chunk := size - next) in *.
        assert (Hsplit :
                  firstn (Z.to_nat length) (skipn (Z.to_nat offset) buf)
                  = firstn (Z.to_nat chunk) (skipn (Z.to_nat offset) buf)
                      ++ firstn (Z.to_nat (length - chunk))
                                (skipn (Z.to_nat (offset + chunk)) buf)).
        { replace (Z.to_nat length)
            with (Z.to_nat chunk + Z.to_nat (length - chunk))%nat by lia.
          rewrite firstn_split, skipn_skipn. do 3 f_equal. lia. }
        rewrite Hsplit, WriteAll_app.
        assert (Hsrc : len (firstn (Z.to_nat chunk)
                                   (skipn (Z.to_nat offset) buf)) = chunk)
          by (apply len_firstn_skipn; lia).
        rewrite WriteAll_fits by lia.
        rewrite Hsrc. replace (next + chunk) with size by (unfold chunk; lia).
        (* the first byte of what is left appends a block *)
        assert (Hrest : exists b rest,
                   firstn (Z.to_nat (length - chunk))
                          (skipn (Z.to_nat (offset + chunk)) buf) = b :: rest).
        { destruct (firstn (Z.to_nat (length - chunk))
                           (skipn (Z.to_nat (offset + chunk)) buf))
            as [| b rest] eqn:Hr; [| now exists b, rest].
          apply (f_equal (@len byte)) in Hr.
          rewrite len_firstn_skipn in Hr by lia.
          change (len (@nil byte)) with 0 in Hr. lia. }
        destruct Hrest as [b [rest Hrest]].
        assert (Hnew : forall blk nxt,
                   new_block (st init blk nxt)
                   = st (init ++ [blk]) (make size) 0).
        { intros blk nxt. unfold new_block.
          cbn [blocks blockSize blockBits blockMask]. reflexivity. }
        assert (Hmake : len (make size) = size)
          by (unfold len, make; rewrite repeat_length; lia).
        assert (Hgo : forall blk,
                   WriteAll (firstn (Z.to_nat (length - chunk))
                                    (skipn (Z.to_nat (offset + chunk)) buf))
                            (st init blk size)
                   = WriteAll (firstn (Z.to_nat (length - chunk))
                                      (skipn (Z.to_nat (offset + chunk)) buf))
                              (st (init ++ [blk]) (make size) 0)).
        { intros blk. rewrite Hrest. cbn [WriteAll].
          rewrite WriteByte_full by (cbn [nextWrite blockSize]; lia).
          now rewrite Hnew. }
        rewrite Hgo.
        destruct (Z.ltb_spec 0 chunk) as [Hsome | Hnone].
        -- rewrite (wrap_uint32_id (offset + chunk)) by lia.
           rewrite slice_in_range by lia.
           replace (offset + chunk - offset) with chunk by lia.
           rewrite copy_to_current_st by lia.
           rewrite (wrap_uint32_id (length - chunk)) by lia.
           rewrite Hnew.
           apply IH; try lia; try assumption.
           destruct (Z.eqb_spec 0 size); destruct (Z.eqb_spec next size); lia.
        -- assert (Hfull : chunk = 0) by lia.
           rewrite Hnew.
           assert (Hnext' : next = size) by (unfold chunk in Hfull; lia).
           rewrite Hfull, Z.sub_0_r, Z.add_0_r.
           rewrite copy_at_nothing.
           subst next. rewrite Z.eqb_refl in Hfuel.
           apply IH; try lia; try assumption.
           destruct (Z.eqb_spec 0 size); lia.
    + assert (length = 0) by lia. subst length.
      eexists. split; reflexivity.
Qed.

End WriteBytesFacts.

Section WriteBytesTheorem.

Import Bytes.

Lemma firstn_whole (buf : list byte) :
  firstn (Z.to_nat (len buf)) (skipn (Z.to_nat 0) buf) = buf.
Proof. unfold len. rewrite Nat2Z.id. cbn [Z.to_nat skipn]. apply firstn_all. Qed.

(** X8.  On a store built by [WriteByte] calls (block bits below 32),
    [WriteBytes(buf)] with a buffer shorter than [2^32] returns [nil] and
    leaves the store exactly as [len(buf)] calls of [WriteByte] would, one
    for each byte of [buf] in order. *)
Theorem WriteBytes_as_WriteByte
        (bits : Z) (data buf : list byte) (bs : BytesStore) (fuel : nat) :
  0 <= bits < 32 ->
  WriteAll data (newBytesStore bits) = Returned bs ->
  len buf < 2 ^ 32 ->
  (length buf < fuel)%nat ->
  exists bs',
    WriteAll buf bs = Returned bs'
    /\ WriteBytes fuel buf bs = Returned (None, bs').
Proof.
  intros Hbits Hdata Hbuf Hfuel.
  destruct (newBytesStore_writer bits Hbits) as [Hok0 Hflat0].
  destruct (WriteAll_writer data (newBytesStore bits) [] Hok0 Hflat0)
    as [bs1 [Hall [Hok [_ _]]]].
  rewrite Hdata in Hall. inversion Hall; subst bs1. clear Hall.
  destruct Hok as [[Hbs Hsize Hmask Hnext Hblocks] Hone Hcur].
  pose proof (wrap_uint32_nonneg (Z.shiftl 1 (blockBits bs))) as Hrange.
  rewrite <- Hsize in Hrange.
  pose proof (len_nonneg buf) as Hlen.
  unfold WriteBytes. rewrite wrap_uint32_id by lia.
  destruct bs as [blks size bbits mask cur next].
  cbn [blocks blockSize blockBits blockMask current nextWrite] in *.
  destruct blks as [| blk0 rest] eqn:Hblks.
  - (* nothing written yet: the first turn appends the first block *)
    destruct Hcur as [-> ->].
    destruct buf as [| b buf].
    + exists (mkStore [] size bbits mask None size).
      destruct fuel; split; reflexivity.
    + destruct fuel as [| fuel]; [simpl in Hfuel; lia |].
      assert (Hmake : len (make size) = size)
        by (unfold len, make; rewrite repeat_length; lia).
      destruct (WriteBytes_for_st size bbits mask ltac:(lia) fuel 0
                  (len (b :: buf)) (b :: buf) [] (make size) 0)
        as [bs' [Hwrite Hloop]]; try lia.
      { destruct (Z.eqb_spec 0 size); [lia |]. simpl in Hfuel.
        rewrite len_cons. unfold len. lia. }
      rewrite firstn_whole in Hwrite.
      exists bs'. split.
      * cbn [WriteAll].
        rewrite WriteByte_full by (cbn [nextWrite blockSize]; lia).
        exact Hwrite.
      * cbn [WriteBytes_for blockSize nextWrite].
        destruct (Z.ltb_spec 0 (len (b :: buf))) as [_ | Hno];
          [| rewrite len_cons in Hno; pose proof (len_nonneg buf); lia].
        rewrite Z.sub_diag. change (wrap_uint32 0) with 0.
        destruct (Z.leb_spec (len (b :: buf)) 0) as [Hno | _];
          [rewrite len_cons in Hno; pose proof (len_nonneg buf); lia |].
        cbn [Z.ltb Z.compare]. exact Hloop.
  - rewrite <- Hblks in *.
    assert (Hne : blks <> []) by (rewrite Hblks; discriminate).
    destruct (last_block blks Hne) as [init [block [Hsplit Hlast]]].
    assert (Hcur' : cur = Some (length init) /\ 1 <= next)
      by (rewrite Hblks in Hcur; rewrite Hblks in Hlast;
          destruct Hcur as [-> Hn]; rewrite Hlast; now split).
    destruct Hcur' as [-> Hpos].
    rewrite Hsplit in *.
    assert (Hblock : len block = size).
    { apply Forall_app in Hblocks. destruct Hblocks as [_ Hb].
      now inversion Hb. }
    destruct (WriteBytes_for_st size bbits mask ltac:(lia) fuel 0
                (len buf) buf init block next)
      as [bs' [Hwrite Hloop]]; try lia.
    { destruct (Z.eqb_spec next size); unfold len; lia. }
    rewrite firstn_whole in Hwrite.
    exists bs'. split; assumption.
Qed.

End WriteBytesTheorem.

Lemma WriteBytes_as_WriteByte_witness :
  exists bs',
    Bytes.WriteAll [x07; x08; x09] Bytes.six_bytes = Returned bs'
    /\ Bytes.WriteBytes 4 [x07; x08; x09] Bytes.six_bytes = Returned (None, bs').
Proof.
  apply (WriteBytes_as_WriteByte 2 [x01; x02; x03; x04; x05; x06]
           [x07; x08; x09] Bytes.six_bytes 4).
  - lia.
  - reflexivity.
  - cbn. lia.
  - cbn. lia.
Defined.

(** ** Reading the block byte store back *)

Section StoreReader.

Import Bytes.

Lemma nth_block_length (blks : list (list byte)) (size : Z) (i : nat) :
  Forall (fun block => len block = size) blks ->
  (i < length blks)%nat ->
  len (nth i blks []) = size.
Proof.
  intros Hall Hi.
  apply (proj1 (Forall_forall _ _) Hall). now apply nth_In.
Qed.

(** The byte at offset [k] of block [i] is byte [i * size + k] of the
    flattened store. *)
Lemma nth_error_concat (blks : list (list byte)) (size : nat) :
  Forall (fun block => length block = size) blks ->
  forall i k : nat,
    (i < length blks)%nat -> (k < size)%nat ->
    nth_error (concat blks) (i * size + k) = nth_error (nth i blks []) k.
Proof.
  induction 1 as [| block blks Hblock _ IH]; intros i k Hi Hk;
    [simpl in Hi; lia |].
  destruct i as [| i]; cbn [concat nth].
  - rewrite nth_error_app1 by lia. reflexivity.
  - rewrite nth_error_app2 by (cbn; lia).
    replace (S i * size + k - length block)%nat with (i * size + k)%nat
      by (cbn; lia).
    apply IH; [simpl in Hi; lia | exact Hk].
Qed.

Lemma blocks_as_nat (bs : BytesStore) :
  store_ok bs ->
  Forall (fun block => length block = Z.to_nat (blockSize bs)) (blocks bs).
Proof.
  intros [_ _ _ _ Hblocks].
  eapply Forall_impl; [| exact Hblocks].
  intros block Hb. cbn in Hb. unfold len in Hb. lia.
Qed.

(** The reader [forwardReader] makes for a store of several blocks stands
    at position 0. *)
Lemma fresh_at_position (bs : BytesStore) (r : ByteStoreForwardReader) :
  store_ok bs -> forwardReader bs = Multi r -> at_position bs r 0.
Proof.
  intros [_ _ _ Hnext _] Hreader. unfold forwardReader in Hreader.
  destruct (len (blocks bs) =? 1); [discriminate |].
  inversion Hreader; subst r.
  pose proof (len_nonneg (blocks bs)).
  constructor; cbn [nextRead nextBuffer mcurrent]; lia.
Qed.

Lemma setPosition_at_position
      (bs : BytesStore) (r : ByteStoreForwardReader) (p : Z) :
  store_ok bs ->
  blockBits bs < 32 ->
  len (blocks bs) < 2 ^ 32 ->
  0 <= p < len (blocks bs) * blockSize bs ->
  exists r', setPosition bs p r = Returned r' /\ at_position bs r' p.
Proof.
  intros Hok Hlt Hblocks Hp.
  destruct (blockSize_pow2 bs Hok Hlt) as [Hsize [Hmask Hpow]].
  destruct Hok as [Hbits _ _ _ _].
  set (B := 2 ^ blockBits bs) in *.
  pose proof (Z.div_mod p B ltac:(lia)) as Hdiv.
  pose proof (Z.mod_pos_bound p B ltac:(lia)) as Hrem.
  assert (Hq : 0 <= p / B < len (blocks bs)).
  { split; [apply Z.div_pos; lia |].
    apply Z.div_lt_upper_bound; [lia |]. rewrite Hsize in Hp. lia. }
  unfold setPosition.
  rewrite Z.shiftr_div_pow2 by lia. fold B.
  destruct (index_in_range (blocks bs) (p / B) Hq) as [blk ->].
  eexists. split; [reflexivity |].
  rewrite Hmask, Z.land_ones by lia. fold B.
  rewrite (wrap_int64_id (p / B + 1)) by (unfold in_int64; lia).
  rewrite (wrap_uint32_id (p / B + 1)) by lia.
  assert (Hmod : wrap_uint32 p mod B = p mod B).
  { unfold wrap_uint32. apply Z.mod_mod_divide.
    exists (2 ^ (32 - blockBits bs)). unfold B.
    rewrite <- Z.pow_add_r by lia. f_equal. lia. }
  rewrite Hmod.
  constructor; cbn [nextRead nextBuffer mcurrent]; rewrite ?Hsize; try lia.
  intros _. split; [lia |]. do 2 f_equal. lia.
Qed.

Lemma getPosition_at_position
      (bs : BytesStore) (r : ByteStoreForwardReader) (q : Z) :
  at_position bs r q ->
  len (blocks bs) < 2 ^ 32 ->
  blockSize bs <= 2 ^ 31 ->
  getPosition bs r = q.
Proof.
  intros [Hread Hbuffer Hq Hcur] Hblocks Hsize.
  unfold getPosition.
  rewrite (wrap_int64_id (nextBuffer r - 1)) by (unfold in_int64; lia).
  assert (Hprod : - 2 ^ 31 <= (nextBuffer r - 1) * blockSize bs
                  <= (2 ^ 32 - 2) * 2 ^ 31) by nia.
  rewrite (wrap_int64_id ((nextBuffer r - 1) * blockSize bs))
    by (unfold in_int64; lia).
  rewrite wrap_int64_id by (unfold in_int64; lia).
  lia.
Qed.

(** [ReadByte] at position [q] returns byte [q] of the store and moves on
    to [q + 1]. *)
Lemma ReadByte_at_position
      (bs : BytesStore) (r : ByteStoreForwardReader) (q : Z) :
  store_ok bs ->
  1 <= blockSize bs ->
  len (blocks bs) < 2 ^ 32 ->
  at_position bs r q ->
  q < len (blocks bs) * blockSize bs ->
  exists b r',
    ReadByte_multi bs r = Returned (b, r')
    /\ nth_error (flat bs) (Z.to_nat q) = Some b
    /\ at_position bs r' (q + 1).
Proof.
  intros Hok Hone Hblocks [Hread Hbuffer Hq Hcur] Hin.
  pose proof (blocks_as_nat bs Hok) as Hnat.
  pose proof Hok as [_ Hsize _ _ Hall].
  pose proof (wrap_uint32_nonneg (Z.shiftl 1 (blockBits bs))) as Hrange.
  rewrite <- Hsize in Hrange.
  unfold ReadByte_multi.
  destruct (Z.eqb_spec (nextRead r) (blockSize bs)) as [Hend | Hmid].
  - (* the next block is loaded *)
    assert (Hnb : 0 <= nextBuffer r < len (blocks bs)) by nia.
    destruct (index_in_range (blocks bs) (nextBuffer r) Hnb) as [blk ->].
    unfold current_block. cbn [mcurrent nextRead nextBuffer].
    assert (Hlen : len (nth (Z.to_nat (nextBuffer r)) (blocks bs) [])
                   = blockSize bs)
      by (apply nth_block_length; [assumption | unfold len in Hnb; lia]).
    destruct (index_in_range (nth (Z.to_nat (nextBuffer r)) (blocks bs) []) 0
                             ltac:(lia)) as [b Hb].
    rewrite Hb. exists b. eexists. split; [reflexivity |].
    split.
    + unfold flat.
      replace (Z.to_nat q)
        with (Z.to_nat (nextBuffer r) * Z.to_nat (blockSize bs) + 0)%nat
        by nia.
      rewrite (nth_error_concat _ _ Hnat) by (unfold len in Hnb; lia).
      exact Hb.
    + rewrite !wrap_uint32_id by lia.
      constructor; cbn [nextRead nextBuffer mcurrent]; try lia.
      intros _. split; [lia |]. do 2 f_equal. lia.
  - (* within the current block *)
    destruct (Hcur ltac:(lia)) as [Hnb Hshare].
    unfold current_block. rewrite Hshare.
    assert (Hlen : len (nth (Z.to_nat (nextBuffer r - 1)) (blocks bs) [])
                   = blockSize bs)
      by (apply nth_block_length; [assumption | unfold len in Hbuffer; lia]).
    destruct (index_in_range (nth (Z.to_nat (nextBuffer r - 1)) (blocks bs) [])
                             (nextRead r) ltac:(lia)) as [b Hb].
    rewrite Hb. exists b. eexists. split; [reflexivity |].
    split.
    + unfold flat. unfold index in Hb.
      destruct (Z.ltb_spec (nextRead r) 0); [lia |].
      replace (Z.to_nat q)
        with (Z.to_nat (nextBuffer r - 1) * Z.to_nat (blockSize bs)
              + Z.to_nat (nextRead r))%nat
        by nia.
      rewrite (nth_error_concat _ _ Hnat) by (unfold len in Hbuffer; lia).
      exact Hb.
    + rewrite wrap_uint32_id by lia.
      constructor; cbn [nextRead nextBuffer mcurrent]; try lia.
      intros _. split; [lia | reflexivity].
Qed.

End StoreReader.

Section StoreReadBytes.

Import Bytes.

Lemma skipn_concat (blks : list (list byte)) (size : nat) :
  Forall (fun block => length block = size) blks ->
  forall i k : nat,
    (i < length blks)%nat -> (k <= size)%nat ->
    skipn (i * size + k) (concat blks)
    = skipn k (nth i blks []) ++ concat (skipn (S i) blks).
Proof.
  induction 1 as [| block blks Hblock _ IH]; intros i k Hi Hk;
    [simpl in Hi; lia |].
  destruct i as [| i]; cbn [concat nth].
  - cbn [Nat.mul Nat.add skipn]. rewrite skipn_app.
    replace (k - length block)%nat with 0%nat by lia. reflexivity.
  - rewrite skipn_app.
    rewrite (skipn_all2 block) by (cbn; lia).
    replace (S i * size + k - length block)%nat with (i * size + k)%nat
      by (cbn; lia).
    cbn [app]. rewrite IH by (simpl in Hi; lia). reflexivity.
Qed.

(** A run of bytes that does not leave a block, read off the flattened
    store. *)
Lemma firstn_skipn_flat (bs : BytesStore) (q nb from count : Z) :
  store_ok bs ->
  1 <= nb <= len (blocks bs) ->
  0 <= from -> 0 <= count -> from + count <= blockSize bs ->
  q = (nb - 1) * blockSize bs + from ->
  firstn (Z.to_nat count) (skipn (Z.to_nat q) (flat bs))
  = firstn (Z.to_nat count)
           (skipn (Z.to_nat from) (nth (Z.to_nat (nb - 1)) (blocks bs) [])).
Proof.
  intros Hok Hnb Hfrom Hcount Hfit Hq.
  pose proof (blocks_as_nat bs Hok) as Hnat.
  destruct Hok as [_ _ _ _ Hall].
  assert (Hlen : len (nth (Z.to_nat (nb - 1)) (blocks bs) []) = blockSize bs)
    by (apply nth_block_length; [assumption | unfold len in Hnb; lia]).
  unfold flat.
  replace (Z.to_nat q)
    with (Z.to_nat (nb - 1) * Z.to_nat (blockSize bs) + Z.to_nat from)%nat
    by nia.
  rewrite (skipn_concat _ _ Hnat) by (unfold len in Hnb; lia).
  rewrite firstn_app, length_skipn.
  replace (Z.to_nat count
           - (length (nth (Z.to_nat (nb - 1)) (blocks bs) []) - Z.to_nat from))%nat
    with 0%nat by (unfold len in Hlen; lia).
  cbn [firstn]. now rewrite app_nil_r.
Qed.

Lemma copy_at_fits (buf src : list byte) (k : nat) :
  (k + length src <= length buf)%nat ->
  copy_at buf k src = firstn k buf ++ src ++ skipn (k + length src) buf.
Proof.
  intros Hfit. unfold copy_at.
  rewrite copy_firstn_skipn, length_skipn, skipn_skipn.
  rewrite (firstn_all2 src) by lia.
  now rewrite (Nat.add_comm (length src)).
Qed.

(** Two pieces copied into a buffer one behind the other. *)
Lemma splice_twice (buf src1 src2 : list byte) (o : nat) :
  (o + length src1 + length src2 <= length buf)%nat ->
  firstn (o + length src1)
         (firstn o buf ++ src1 ++ skipn (o + length src1) buf)
    ++ src2
    ++ skipn (o + length src1 + length src2)
             (firstn o buf ++ src1 ++ skipn (o + length src1) buf)
  = firstn o buf ++ (src1 ++ src2)
      ++ skipn (o + (length src1 + length src2)) buf.
Proof.
  intros Hfit.
  assert (Hhead : length (firstn o buf ++ src1) = (o + length src1)%nat)
    by (rewrite length_app, length_firstn; lia).
  rewrite (app_assoc (firstn o buf) src1).
  rewrite <- Hhead at 1.
  rewrite firstn_app, Nat.sub_diag, firstn_all. cbn [firstn].
  rewrite app_nil_r.
  replace (o + length src1 + length src2)%nat
    with (length src2 + length (firstn o buf ++ src1))%nat by lia.
  rewrite <- skipn_skipn, skipn_app, Nat.sub_diag, skipn_all.
  cbn [skipn app]. rewrite skipn_skipn.
  rewrite <- !app_assoc. do 4 f_equal. lia.
Qed.

Lemma slice_block (block : list byte) (lo count : Z) :
  0 <= lo -> 0 <= count -> lo + count <= len block ->
  slice block lo (lo + count)
  = Some (firstn (Z.to_nat count) (skipn (Z.to_nat lo) block)).
Proof.
  intros Hlo Hcount Hfit. unfold slice.
  destruct (Z.leb_spec 0 lo); [| lia].
  destruct (Z.leb_spec lo (lo + count)); [| lia].
  destruct (Z.leb_spec (lo + count) (len block)); [| lia].
  cbn [andb]. do 3 f_equal. lia.
Qed.

(** The loop of the multi-block [ReadBytes] from position [q]: the
    [length] bytes from [q] on land in [buf] from [offset] on, the rest of
    [buf] is kept, and the reader moves on to [q + length]. *)
Lemma ReadBytes_multi_for_spec (bs : BytesStore) :
  store_ok bs ->
  1 <= blockSize bs ->
  len (blocks bs) < 2 ^ 32 ->
  forall (fuel : nat) (offset length : Z) (buf : list byte)
         (r : ByteStoreForwardReader) (q : Z),
    at_position bs r q ->
    0 <= offset -> 0 <= length -> offset + length <= len buf ->
    len buf < 2 ^ 32 ->
    q + length <= len (blocks bs) * blockSize bs ->
    length + (if nextRead r =? blockSize bs then 1 else 0) <= Z.of_nat fuel ->
    exists r',
      ReadBytes_multi_for fuel bs offset length buf r
      = Returned (firstn (Z.to_nat offset) buf
                    ++ firstn (Z.to_nat length) (skipn (Z.to_nat q) (flat bs))
                    ++ skipn (Z.to_nat (offset + length)) buf,
                  r')
      /\ at_position bs r' (q + length).
Proof.
  intros Hok Hone Hblocks.
  pose proof Hok as [_ Hsize _ _ Hall].
  pose proof (wrap_uint32_nonneg (Z.shiftl 1 (blockBits bs))) as Hrange.
  rewrite <- Hsize in Hrange.
  induction fuel as [| fuel IH];
    intros offset count buf r q Hat Hoff Hlen Hfit Hbuf Hin Hfuel.
  - assert (count = 0) by (destruct (nextRead r =? blockSize bs); lia).
    subst count. exists r. cbn [ReadBytes_multi_for Z.ltb Z.compare].
    cbn [Z.to_nat firstn app]. rewrite Z.add_0_r, firstn_skipn.
    split; [reflexivity | now rewrite Z.add_0_r].
  - cbn [ReadBytes_multi_for].
    destruct (Z.ltb_spec 0 count) as [Hpos | Hzero].
    + pose proof Hat as [Hread Hbuffer Hq Hcur].
      rewrite (wrap_uint32_id (blockSize bs - nextRead r)) by lia.
      destruct (Z.leb_spec count (blockSize bs - nextRead r)) as [Hhere | Hon].
      * (* what is asked for lies in the current block *)
        destruct (Hcur ltac:(lia)) as [Hnb Hshare].
        unfold current_block. rewrite Hshare.
        assert (Hblk : len (nth (Z.to_nat (nextBuffer r - 1)) (blocks bs) [])
                       = blockSize bs)
          by (apply nth_block_length;
              [assumption | unfold len in Hbuffer; lia]).
        rewrite (wrap_uint32_id (nextRead r + count)) by lia.
        rewrite slice_block by lia.
        destruct (Z.ltb_spec (len buf) offset); [lia |].
        rewrite <- (firstn_skipn_flat bs q (nextBuffer r) (nextRead r) count)
          by (assumption || lia).
        assert (Hsrc : length (firstn (Z.to_nat count)
                                      (skipn (Z.to_nat q) (flat bs)))
                       = Z.to_nat count).
        { rewrite length_firstn, length_skipn.
          unfold flat. rewrite <- (Nat2Z.id (length (concat (blocks bs)))).
          fold (len (concat (blocks bs))).
          rewrite (concat_length_blocks _ _ Hall). nia. }
        eexists. split.
        -- rewrite copy_at_fits by (rewrite Hsrc; unfold len in Hfit; lia).
           rewrite Hsrc.
           replace (Z.to_nat offset + Z.to_nat count)%nat
             with (Z.to_nat (offset + count)) by lia.
           reflexivity.
        -- constructor; cbn [nextRead nextBuffer mcurrent]; try lia.
           intros _. split; [lia | reflexivity].
      * (* take what the current block still has, then the next block *)
        set (chunk := blockSize bs - nextRead r) in *.
        assert (Hnext : 0 <= nextBuffer r < len (blocks bs)) by nia.
        destruct (index_in_range (blocks bs) (nextBuffer r) Hnext) as [blk Hblk].
        assert (Hat' : at_position bs
                         (mkMulti (Some (Z.to_nat (nextBuffer r)))
                                  (wrap_uint32 (nextBuffer r + 1)) 0)
                         (q + chunk)).
        { rewrite wrap_uint32_id by lia.
          constructor; cbn [nextRead nextBuffer mcurrent]; try lia.
          intros _. split; [lia |]. do 2 f_equal. lia. }
        destruct (Z.ltb_spec 0 chunk) as [Hsome | Hnone].
        -- destruct (Hcur ltac:(unfold chunk in Hsome; lia)) as [Hnb Hshare].
           assert (Hq0 : 0 <= q) by nia.
           unfold current_block at 1. rewrite Hshare.
           assert (Hlenb : len (nth (Z.to_nat (nextBuffer r - 1)) (blocks bs) [])
                           = blockSize bs)
             by (apply nth_block_length;
                 [assumption | unfold len in Hbuffer; lia]).
           rewrite (wrap_uint32_id (nextRead r + chunk)) by (unfold chunk; lia).
           rewrite slice_block by (unfold chunk; lia).
           destruct (Z.ltb_spec (len buf) offset); [lia |].
           rewrite Hblk.
           rewrite (wrap_uint32_id (offset + chunk)) by lia.
           rewrite (wrap_uint32_id (count - chunk)) by lia.
           rewrite <- (firstn_skipn_flat bs q (nextBuffer r) (nextRead r) chunk)
             by (assumption || unfold chunk; lia).
           set (src := firstn (Z.to_nat chunk) (skipn (Z.to_nat q) (flat bs))).
           assert (Hsrc : length src = Z.to_nat chunk).
           { unfold src. rewrite length_firstn, length_skipn.
             unfold flat. rewrite <- (Nat2Z.id (length (concat (blocks bs)))).
             fold (len (concat (blocks bs))).
             rewrite (concat_length_blocks _ _ Hall). nia. }
           assert (Hcopy : copy_at buf (Z.to_nat offset) src
                           = firstn (Z.to_nat offset) buf ++ src
                               ++ skipn (Z.to_nat offset + Z.to_nat chunk) buf).
           { rewrite copy_at_fits by (unfold len in Hfit; lia).
             now rewrite Hsrc. }
           rewrite Hcopy.
           set (buf' := firstn (Z.to_nat offset) buf ++ src
                          ++ skipn (Z.to_nat offset + Z.to_nat chunk) buf).
           assert (Hlen' : len buf' = len buf).
           { unfold len, buf'.
             rewrite !length_app, length_firstn, length_skipn, Hsrc.
             unfold len in Hfit. lia. }
           destruct (IH (offset + chunk) (count - chunk) buf'
                        (mkMulti (Some (Z.to_nat (nextBuffer r)))
                                 (wrap_uint32 (nextBuffer r + 1)) 0)
                        (q + chunk) Hat')
             as [r' [Hrun Hat'']]; try lia.
           { cbn [nextRead]. destruct (Z.eqb_spec 0 (blockSize bs));
               destruct (Z.eqb_spec (nextRead r) (blockSize bs)); lia. }
           exists r'. split.
           ++ rewrite Hrun. f_equal. f_equal.
              set (src2 := firstn (Z.to_nat (count - chunk))
                                  (skipn (Z.to_nat (q + chunk)) (flat bs))).
              assert (Hsrc2 : length src2 = Z.to_nat (count - chunk)).
              { unfold src2. rewrite length_firstn, length_skipn.
                unfold flat.
                rewrite <- (Nat2Z.id (length (concat (blocks bs)))).
                fold (len (concat (blocks bs))).
                rewrite (concat_length_blocks _ _ Hall). nia. }
              assert (Hjoin : firstn (Z.to_nat count)
                                     (skipn (Z.to_nat q) (flat bs))
                              = src ++ src2).
              { replace (Z.to_nat count)
                  with (Z.to_nat chunk + Z.to_nat (count - chunk))%nat by lia.
                rewrite firstn_split, skipn_skipn.
                replace (Z.to_nat chunk + Z.to_nat q)%nat
                  with (Z.to_nat (q + chunk)) by lia.
                reflexivity. }
              rewrite Hjoin. unfold buf'.
              replace (Z.to_nat (offset + chunk + (count - chunk)))
                with (Z.to_nat offset + length src + length src2)%nat by lia.
              replace (Z.to_nat (offset + chunk))
                with (Z.to_nat offset + length src)%nat by lia.
              replace (Z.to_nat offset + Z.to_nat chunk)%nat
                with (Z.to_nat offset + length src)%nat by lia.
              replace (Z.to_nat (offset + count))
                with (Z.to_nat offset + (length src + length src2))%nat by lia.
              apply splice_twice. unfold len in Hfit. lia.
           ++ replace (q + count) with (q + chunk + (count - chunk)) by lia.
              exact Hat''.
        -- (* the reader stands at the end of a block *)
           assert (Hfull : chunk = 0) by (unfold chunk in *; lia).
           rewrite Hblk.
           rewrite Hfull, Z.add_0_r in Hat'.
           destruct (IH offset count buf
                        (mkMulti (Some (Z.to_nat (nextBuffer r)))
                                 (wrap_uint32 (nextBuffer r + 1)) 0)
                        q Hat')
             as [r' [Hrun Hat'']]; try lia.
           { cbn [nextRead]. destruct (Z.eqb_spec 0 (blockSize bs));
               destruct (Z.eqb_spec (nextRead r) (blockSize bs));
               unfold chunk in Hfull; lia. }
           exists r'. split; [exact Hrun | exact Hat''].
    + assert (count = 0) by lia. subst count. exists r.
      cbn [Z.to_nat firstn app]. rewrite Z.add_0_r, firstn_skipn.
      split; [reflexivity | now rewrite Z.add_0_r].
Qed.

End StoreReadBytes.

(** ** Write, then read *)

Section WriteThenRead.

Import Bytes.

(** What is known of a store built by [WriteByte] calls. *)
Lemma written_store (bits : Z) (data : list byte) (bs : BytesStore) :
  0 <= bits < 32 ->
  WriteAll data (newBytesStore bits) = Returned bs ->
  store_ok bs
  /\ 1 <= blockSize bs <= 2 ^ 31
  /\ blockBits bs < 32
  /\ len data <= len (blocks bs) * blockSize bs
  /\ flat bs = data ++ repeat x00 (Z.to_nat (blockSize bs - nextWrite bs))
  /\ written bs = len data
  /\ (data <> [] -> 1 <= nextWrite bs)
  /\ blockBits bs = bits.
Proof.
  intros Hbits Hdata.
  destruct (newBytesStore_writer bits Hbits) as [Hok0 Hflat0].
  destruct (WriteAll_writer data (newBytesStore bits) [] Hok0 Hflat0)
    as [bs1 [Hall [Hok [Hsame Hflat]]]].
  rewrite Hdata in Hall. inversion Hall; subst bs1. clear Hall.
  cbn [app newBytesStore blockBits] in Hflat, Hsame.
  pose proof (written_of_flat bs data Hok Hflat) as Hwritten.
  destruct Hok as [Hstore Hone Hcur].
  destruct (blockSize_pow2 bs Hstore ltac:(lia)) as [Hsize [_ Hpow]].
  pose proof (written_within_blocks bs Hstore) as Hwithin.
  split; [exact Hstore |]. split; [lia |]. split; [lia |].
  split; [lia |]. split; [exact Hflat |]. split; [exact Hwritten |].
  split; [| exact Hsame].
  intros Hne. destruct (blocks bs) as [| blk rest] eqn:Hb.
  - unfold written in Hwritten. rewrite Hb in Hwritten.
    destruct data; [contradiction | discriminate].
  - now destruct Hcur.
Qed.

Lemma to_nat_len (buf : list byte) : Z.to_nat (len buf) = length buf.
Proof. unfold len. apply Nat2Z.id. Qed.

Lemma nth_error_front (data pad : list byte) (p : Z) (b : byte) :
  0 <= p < len data ->
  nth_error (data ++ pad) (Z.to_nat p) = Some b ->
  nth_error data (Z.to_nat p) = Some b.
Proof.
  intros Hp Hnth. rewrite nth_error_app1 in Hnth; [exact Hnth |].
  unfold len in Hp. lia.
Qed.

Lemma firstn_skipn_front (data pad : list byte) (p count : nat) :
  (p + count <= length data)%nat ->
  firstn count (skipn p (data ++ pad)) = firstn count (skipn p data).
Proof.
  intros Hfit. rewrite skipn_app, firstn_app, length_skipn.
  replace (count - (length data - p))%nat with 0%nat by lia.
  cbn [firstn]. now rewrite app_nil_r.
Qed.

(** X9.  On a store of several blocks built by [WriteByte] calls, the
    reader of [forwardReader], set to any position [p] of the written
    bytes, returns with [ReadByte] the byte that was written at [p] and
    then stands at [p + 1]. *)
Theorem ReadByte_reads_back
        (bits : Z) (data : list byte) (bs : BytesStore)
        (r0 : ByteStoreForwardReader) (p : Z) :
  0 <= bits < 32 ->
  WriteAll data (newBytesStore bits) = Returned bs ->
  len (blocks bs) < 2 ^ 32 ->
  forwardReader bs = Multi r0 ->
  0 <= p < len data ->
  exists r1 b r2,
    setPosition bs p r0 = Returned r1
    /\ ReadByte_multi bs r1 = Returned (b, r2)
    /\ nth_error data (Z.to_nat p) = Some b
    /\ getPosition bs r2 = p + 1.
Proof.
  intros Hbits Hdata Hblocks _ Hp.
  destruct (written_store bits data bs Hbits Hdata)
    as [Hok [Hsize [Hlt [Hwithin [Hflat _]]]]].
  destruct (setPosition_at_position bs r0 p Hok Hlt Hblocks ltac:(lia))
    as [r1 [Hset Hat1]].
  destruct (ReadByte_at_position bs r1 p Hok ltac:(lia) Hblocks Hat1 ltac:(lia))
    as [b [r2 [Hread [Hnth Hat2]]]].
  exists r1, b, r2.
  split; [exact Hset |]. split; [exact Hread |]. split.
  - rewrite Hflat in Hnth. exact (nth_error_front _ _ p b Hp Hnth).
  - apply getPosition_at_position; [exact Hat2 | exact Hblocks | lia].
Qed.

(** X10.  On such a store, [ReadBytes(buf)] of the reader set to position
    [p] fills [buf] with the [len(buf)] bytes written from [p] on, returns
    [(len(buf), nil)] and leaves the reader at [p + len(buf)]. *)
Theorem ReadBytes_reads_back
        (bits : Z) (data buf : list byte) (bs : BytesStore)
        (r0 : ByteStoreForwardReader) (p : Z) (fuel : nat) :
  0 <= bits < 32 ->
  WriteAll data (newBytesStore bits) = Returned bs ->
  len (blocks bs) < 2 ^ 32 ->
  forwardReader bs = Multi r0 ->
  0 <= p < len data ->
  p + len buf <= len data ->
  len buf < 2 ^ 32 ->
  (length buf < fuel)%nat ->
  exists r1 r2,
    setPosition bs p r0 = Returned r1
    /\ ReadBytes_multi fuel bs r1 buf
       = Returned (len buf, None,
                   firstn (length buf) (skipn (Z.to_nat p) data), r2)
    /\ getPosition bs r2 = p + len buf.
Proof.
  intros Hbits Hdata Hblocks _ Hp Hfit Hbuf Hfuel.
  destruct (written_store bits data bs Hbits Hdata)
    as [Hok [Hsize [Hlt [Hwithin [Hflat _]]]]].
  pose proof (len_nonneg buf) as Hnonneg.
  destruct (setPosition_at_position bs r0 p Hok Hlt Hblocks ltac:(lia))
    as [r1 [Hset Hat1]].
  destruct (ReadBytes_multi_for_spec bs Hok ltac:(lia) Hblocks fuel 0
              (len buf) buf r1 p Hat1)
    as [r2 [Hrun Hat2]]; try lia.
  { destruct (nextRead r1 =? blockSize bs); unfold len; lia. }
  exists r1, r2. split; [exact Hset |]. split.
  - unfold ReadBytes_multi. rewrite wrap_uint32_id by lia. rewrite Hrun.
    cbn [Z.to_nat firstn app]. rewrite Z.add_0_l.
    rewrite !to_nat_len, skipn_all, app_nil_r.
    rewrite Hflat, firstn_skipn_front by (unfold len in *; lia).
    reflexivity.
  - apply getPosition_at_position; [exact Hat2 | exact Hblocks | lia].
Qed.

(** X11.  On a store of several blocks, fewer than [2^32], built by
    [WriteByte] calls with [blockBits < 32], the reader [forwardReader]
    makes starts at position 0, and two consecutive [ReadBytes] calls with
    buffers of fewer than [2^32] bytes each, together no longer than what
    was written, return consecutive parts of what was written: the first
    [len(buf1)] bytes, then the next [len(buf2)] bytes, the reader ending
    at position [len(buf1) + len(buf2)]. *)
Theorem ReadBytes_in_sequence
        (bits : Z) (data buf1 buf2 : list byte) (bs : BytesStore)
        (r0 : ByteStoreForwardReader) (fuel : nat) :
  0 <= bits < 32 ->
  WriteAll data (newBytesStore bits) = Returned bs ->
  len (blocks bs) < 2 ^ 32 ->
  forwardReader bs = Multi r0 ->
  len buf1 + len buf2 <= len data ->
  len buf1 < 2 ^ 32 -> len buf2 < 2 ^ 32 ->
  (length buf1 < fuel)%nat -> (length buf2 < fuel)%nat ->
  exists r1 r2,
    getPosition bs r0 = 0
    /\ ReadBytes_multi fuel bs r0 buf1
       = Returned (len buf1, None, firstn (length buf1) data, r1)
    /\ ReadBytes_multi fuel bs r1 buf2
       = Returned (len buf2, None,
                   firstn (length buf2) (skipn (length buf1) data), r2)
    /\ getPosition bs r2 = len buf1 + len buf2.
Proof.
  intros Hbits Hdata Hblocks Hreader Hfit Hbuf1 Hbuf2 Hfuel1 Hfuel2.
  destruct (written_store bits data bs Hbits Hdata)
    as [Hok [Hsize [Hlt [Hwithin [Hflat _]]]]].
  pose proof (len_nonneg buf1) as Hn1. pose proof (len_nonneg buf2) as Hn2.
  pose proof (fresh_at_position bs r0 Hok Hreader) as Hat0.
  destruct (ReadBytes_multi_for_spec bs Hok ltac:(lia) Hblocks fuel 0
              (len buf1) buf1 r0 0 Hat0)
    as [r1 [Hrun1 Hat1]]; try lia.
  { destruct (nextRead r0 =? blockSize bs); unfold len; lia. }
  destruct (ReadBytes_multi_for_spec bs Hok ltac:(lia) Hblocks fuel 0
              (len buf2) buf2 r1 (0 + len buf1) Hat1)
    as [r2 [Hrun2 Hat2]]; try lia.
  { destruct (nextRead r1 =? blockSize bs); unfold len; lia. }
  exists r1, r2.
  split; [apply getPosition_at_position; [exact Hat0 | exact Hblocks | lia] |].
  split; [| split].
  - unfold ReadBytes_multi. rewrite wrap_uint32_id by lia. rewrite Hrun1.
    cbn [Z.to_nat firstn app]. rewrite Z.add_0_l.
    rewrite !to_nat_len, skipn_all, app_nil_r.
    rewrite Hflat.
    rewrite (firstn_skipn_front data _ 0 (length buf1))
      by (unfold len in *; lia).
    reflexivity.
  - unfold ReadBytes_multi. rewrite wrap_uint32_id by lia. rewrite Hrun2.
    cbn [Z.to_nat firstn app]. rewrite !Z.add_0_l.
    rewrite !to_nat_len, skipn_all, app_nil_r.
    rewrite Hflat, firstn_skipn_front by (unfold len in *; lia).
    reflexivity.
  - rewrite <- (Z.add_0_l (len buf1)).
    apply getPosition_at_position; [exact Hat2 | exact Hblocks | lia].
Qed.

(** X12.  On a store of several blocks, fewer than [2^32], built by
    [WriteByte] calls with [blockBits < 32], [skipBytes(count)] of the
    multi-block reader moves it from a position [p] of the written bytes
    to [p + count], forwards or backwards, whenever [p + count] is again a
    position of the written bytes. *)
Theorem skipBytes_moves_the_reader
        (bits : Z) (data : list byte) (bs : BytesStore)
        (r0 : ByteStoreForwardReader) (p count : Z) :
  0 <= bits < 32 ->
  WriteAll data (newBytesStore bits) = Returned bs ->
  len (blocks bs) < 2 ^ 32 ->
  forwardReader bs = Multi r0 ->
  0 <= p < len data ->
  - 2 ^ 31 <= count < 2 ^ 31 ->
  0 <= p + count < len data ->
  exists r1 r2,
    setPosition bs p r0 = Returned r1
    /\ skipBytes bs count r1 = Returned r2
    /\ getPosition bs r2 = p + count.
Proof.
  intros Hbits Hdata Hblocks _ Hp _ Hto.
  destruct (written_store bits data bs Hbits Hdata)
    as [Hok [Hsize [Hlt [Hwithin [Hflat _]]]]].
  destruct (setPosition_at_position bs r0 p Hok Hlt Hblocks ltac:(lia))
    as [r1 [Hset Hat1]].
  assert (Hget : getPosition bs r1 = p)
    by (apply getPosition_at_position; [exact Hat1 | exact Hblocks | lia]).
  assert (Hdata63 : len data < 2 ^ 63) by nia.
  destruct (setPosition_at_position bs r1 (p + count) Hok Hlt Hblocks ltac:(lia))
    as [r2 [Hskip Hat2]].
  exists r1, r2. split; [exact Hset |]. split.
  - unfold skipBytes. rewrite Hget.
    rewrite wrap_int64_id by (unfold in_int64; lia). exact Hskip.
  - apply getPosition_at_position; [exact Hat2 | exact Hblocks | lia].
Qed.

(** X13.  The multi-block reader knows nothing of how much was written.
    On a store of several blocks, fewer than [2^32], built by [WriteByte]
    calls with [blockBits < 32], set to a position past the written bytes
    and before the end of the last block, [ReadByte] returns the zero byte
    the block was allocated with. *)
Theorem ReadByte_past_the_written_bytes
        (bits : Z) (data : list byte) (bs : BytesStore)
        (r0 : ByteStoreForwardReader) (p : Z) :
  0 <= bits < 32 ->
  WriteAll data (newBytesStore bits) = Returned bs ->
  len (blocks bs) < 2 ^ 32 ->
  forwardReader bs = Multi r0 ->
  len data <= p < len (blocks bs) * blockSize bs ->
  exists r1 r2,
    setPosition bs p r0 = Returned r1
    /\ ReadByte_multi bs r1 = Returned (x00, r2).
Proof.
  intros Hbits Hdata Hblocks _ Hp.
  destruct (written_store bits data bs Hbits Hdata)
    as [Hok [Hsize [Hlt [Hwithin [Hflat _]]]]].
  pose proof (len_nonneg data) as Hnonneg.
  destruct (setPosition_at_position bs r0 p Hok Hlt Hblocks ltac:(lia))
    as [r1 [Hset Hat1]].
  destruct (ReadByte_at_position bs r1 p Hok ltac:(lia) Hblocks Hat1 ltac:(lia))
    as [b [r2 [Hread [Hnth _]]]].
  exists r1, r2. split; [exact Hset |].
  rewrite Hflat, nth_error_app2 in Hnth by (unfold len in Hp; lia).
  apply nth_error_In, repeat_spec in Hnth. now subst b.
Qed.

End WriteThenRead.

(** ** Where a reader can be set *)

Section ReaderBounds.

Import Bytes.

(** X14.  On a store with [blockBits < 32], [setPosition(p)] of the
    multi-block reader returns exactly for the positions within the
    allocated blocks, [0 <= p < len(blocks) * blockSize]; for every other
    [p], negative ones included, it panics with an index out of range. *)
Theorem setPosition_bounds
        (bs : BytesStore) (r : ByteStoreForwardReader) (p : Z) :
  store_ok bs ->
  blockBits bs < 32 ->
  match setPosition bs p r with
  | Returned _ => 0 <= p < len (blocks bs) * blockSize bs
  | Panicked msg =>
      (p < 0 \/ len (blocks bs) * blockSize bs <= p)
      /\ msg = "index out of range"%string
  | Running => False
  end.
Proof.
  intros Hok Hlt.
  destruct (blockSize_pow2 bs Hok Hlt) as [Hsize [_ Hpow]].
  destruct Hok as [Hbits _ _ _ _].
  unfold setPosition.
  rewrite Z.shiftr_div_pow2 by lia. rewrite Hsize.
  set (B := 2 ^ blockBits bs) in *.
  destruct (index (blocks bs) (p / B)) as [blk |] eqn:Hidx.
  - apply index_Some_bounds in Hidx.
    pose proof (Z.div_mod p B ltac:(lia)) as Hdiv.
    pose proof (Z.mod_pos_bound p B ltac:(lia)) as Hrem.
    nia.
  - split; [| reflexivity].
    destruct (Z.lt_ge_cases p 0) as [Hneg | Hpos]; [now left | right].
    destruct (Z.lt_ge_cases p (len (blocks bs) * B)) as [Hin | Hout];
      [| exact Hout].
    assert (Hq : 0 <= p / B < len (blocks bs)).
    { split; [apply Z.div_pos; lia |].
      apply Z.div_lt_upper_bound; lia. }
    destruct (index_in_range (blocks bs) (p / B) Hq) as [blk Hsome].
    congruence.
Qed.

(** X15.  A store that holds between one and [blockSize] bytes has one
    block, so [forwardReader] gives it the single-block reader, and that
    reader's [ReadByte] panics at every position (it indexes the [bytes]
    field, which is never assigned), having moved the position on by
    one. *)
Theorem one_block_store_cannot_be_read
        (bits : Z) (data : list byte) (bs : BytesStore) :
  0 <= bits < 32 ->
  WriteAll data (newBytesStore bits) = Returned bs ->
  1 <= len data <= 2 ^ bits ->
  forwardReader bs = Single (mkForward 0)
  /\ forall r : ForwardBytesReader,
      ReadByte_single r
      = (Panicked "index out of range", mkForward (wrap_int32 (pos r + 1))).
Proof.
  intros Hbits Hdata Hlen.
  destruct (written_store bits data bs Hbits Hdata)
    as [Hok [Hsize [Hlt [Hwithin [Hflat [Hwritten [Hnext Hsame]]]]]]].
  destruct (blockSize_pow2 bs Hok Hlt) as [Hpow2 _].
  rewrite Hsame in Hpow2.
  assert (Hne : data <> []).
  { destruct data; [cbn in Hlen; lia | discriminate]. }
  specialize (Hnext Hne).
  pose proof Hok as [_ _ _ Hnw _].
  split.
  - unfold forwardReader.
    replace (len (blocks bs)) with 1; [reflexivity |].
    unfold written in Hwritten.
    destruct (blocks bs) as [| blk rest] eqn:Hb; [lia |].
    pose proof (len_nonneg rest). rewrite len_cons in *. nia.
  - intros r. unfold ReadByte_single. cbn [pos]. unfold index.
    destruct (wrap_int32 (wrap_int32 (pos r + 1) - 1) <? 0); [reflexivity |].
    destruct (Z.to_nat (wrap_int32 (wrap_int32 (pos r + 1) - 1)));
      reflexivity.
Qed.

End ReaderBounds.

(** The six-byte store [1 2 3 4 | 5 6 0 0] and the four-byte store
    [1 2 3 4], read back. *)
Lemma ReadByte_reads_back_witness :
  exists r1 b r2,
    Bytes.setPosition Bytes.six_bytes 4 (Bytes.mkMulti None 0 4) = Returned r1
    /\ Bytes.ReadByte_multi Bytes.six_bytes r1 = Returned (b, r2)
    /\ nth_error [x01; x02; x03; x04; x05; x06] (Z.to_nat 4) = Some b
    /\ Bytes.getPosition Bytes.six_bytes r2 = 4 + 1.
Proof.
  apply (ReadByte_reads_back 2 [x01; x02; x03; x04; x05; x06] Bytes.six_bytes
           (Bytes.mkMulti None 0 4) 4).
  - lia.
  - reflexivity.
  - cbn. lia.
  - reflexivity.
  - cbn. lia.
Defined.

Lemma ReadBytes_reads_back_witness :
  exists r1 r2,
    Bytes.setPosition Bytes.six_bytes 2 (Bytes.mkMulti None 0 4) = Returned r1
    /\ Bytes.ReadBytes_multi 4 Bytes.six_bytes r1 [x00; x00; x00]
       = Returned (len [x00; x00; x00], None,
                   firstn (length [x00; x00; x00])
                          (skipn (Z.to_nat 2) [x01; x02; x03; x04; x05; x06]),
                   r2)
    /\ Bytes.getPosition Bytes.six_bytes r2 = 2 + len [x00; x00; x00].
Proof.
  apply (ReadBytes_reads_back 2 [x01; x02; x03; x04; x05; x06] [x00; x00; x00]
           Bytes.six_bytes (Bytes.mkMulti None 0 4) 2 4).
  - lia.
  - reflexivity.
  - cbn. lia.
  - reflexivity.
  - cbn. lia.
  - cbn. lia.
  - cbn. lia.
  - cbn. lia.
Defined.

Lemma ReadBytes_in_sequence_witness :
  exists r1 r2,
    Bytes.getPosition Bytes.six_bytes (Bytes.mkMulti None 0 4) = 0
    /\ Bytes.ReadBytes_multi 4 Bytes.six_bytes (Bytes.mkMulti None 0 4)
                             [x00; x00; x00]
       = Returned (len [x00; x00; x00], None,
                   firstn (length [x00; x00; x00])
                          [x01; x02; x03; x04; x05; x06], r1)
    /\ Bytes.ReadBytes_multi 4 Bytes.six_bytes r1 [x00; x00]
       = Returned (len [x00; x00], None,
                   firstn (length [x00; x00])
                          (skipn (length [x00; x00; x00])
                                 [x01; x02; x03; x04; x05; x06]), r2)
    /\ Bytes.getPosition Bytes.six_bytes r2
       = len [x00; x00; x00] + len [x00; x00].
Proof.
  apply (ReadBytes_in_sequence 2 [x01; x02; x03; x04; x05; x06]
           [x00; x00; x00] [x00; x00] Bytes.six_bytes
           (Bytes.mkMulti None 0 4) 4).
  - lia.
  - reflexivity.
  - cbn. lia.
  - reflexivity.
  - cbn. lia.
  - cbn. lia.
  - cbn. lia.
  - cbn. lia.
  - cbn. lia.
Defined.

Lemma skipBytes_moves_the_reader_witness :
  exists r1 r2,
    Bytes.setPosition Bytes.six_bytes 5 (Bytes.mkMulti None 0 4) = Returned r1
    /\ Bytes.skipBytes Bytes.six_bytes (-4) r1 = Returned r2
    /\ Bytes.getPosition Bytes.six_bytes r2 = 5 + -4.
Proof.
  apply (skipBytes_moves_the_reader 2 [x01; x02; x03; x04; x05; x06]
           Bytes.six_bytes (Bytes.mkMulti None 0 4) 5 (-4)).
  - lia.
  - reflexivity.
  - cbn. lia.
  - reflexivity.
  - cbn. lia.
  - lia.
  - cbn. lia.
Defined.

Lemma ReadByte_past_the_written_bytes_witness :
  exists r1 r2,
    Bytes.setPosition Bytes.six_bytes 7 (Bytes.mkMulti None 0 4) = Returned r1
    /\ Bytes.ReadByte_multi Bytes.six_bytes r1 = Returned (x00, r2).
Proof.
  apply (ReadByte_past_the_written_bytes 2 [x01; x02; x03; x04; x05; x06]
           Bytes.six_bytes (Bytes.mkMulti None 0 4) 7).
  - lia.
  - reflexivity.
  - cbn. lia.
  - reflexivity.
  - cbn. lia.
Defined.

Lemma setPosition_bounds_witness :
  (8 < 0 \/ len (Bytes.blocks Bytes.six_bytes) * Bytes.blockSize Bytes.six_bytes <= 8)
  /\ "index out of range"%string = "index out of range"%string.
Proof.
  apply (setPosition_bounds Bytes.six_bytes (Bytes.mkMulti None 0 4) 8).
  - constructor; cbn; try reflexivity; try lia. repeat constructor.
  - cbn. lia.
Defined.

Lemma one_block_store_cannot_be_read_witness :
  Bytes.forwardReader Bytes.four_bytes = Bytes.Single (Bytes.mkForward 0)
  /\ forall r : Bytes.ForwardBytesReader,
      Bytes.ReadByte_single r
      = (Panicked "index out of range",
         Bytes.mkForward (wrap_int32 (Bytes.pos r + 1))).
Proof.
  apply (one_block_store_cannot_be_read 2 [x01; x02; x03; x04] Bytes.four_bytes).
  - lia.
  - reflexivity.
  - cbn. lia.
Defined.
